(** * Bareos storage daemon core: dedup file vectors, dedup volume sidecar,
      and the single-producer/single-consumer channel.

    Shallow embedding of
      - core/src/stored/backends/dedup/util.h       (raii_fd, file_based_vector)
      - core/src/stored/backends/dedup/dedup_volume.cc (volume::load_config,
                                                     volume::write_current_config)
      - core/src/lib/channel.h                      (data, in, out,
                                                     CreateBufferedChannel)
    followed by the properties proved about them. *)

From stdpp Require Import gmap list.
From Stdlib Require Import ZArith Lia.

Open Scope Z_scope.

(** ** Machine words

    [std::size_t] is modelled as a [Z] in [0, 2^64) (LP64); every C++
    operator on it is written with its wrap-around. *)

Definition size_t_bits : Z := 64.
Definition size_t_mod : Z := 2 ^ size_t_bits.
Definition to_size_t (z : Z) : Z := z mod size_t_mod.
Definition size_add (a b : Z) : Z := to_size_t (a + b).
Definition size_sub (a b : Z) : Z := to_size_t (a - b).
Definition size_mul (a b : Z) : Z := to_size_t (a * b).
Definition is_size_t (z : Z) : Prop := 0 <= z < size_t_mod.

(** [ssize_t], the type of what [lseek], [read] and [write] return. *)
Definition is_ssize_t (z : Z) : Prop := - 2 ^ 63 <= z < 2 ^ 63.

(** ** dedup::util *)

Module util.

(** A call either returns, or the process does not survive it: a failed
    [ASSERT] (the macro aborts), a division by zero, or an exception leaving
    the function ([new T[count]]). *)
Inductive outcome (A : Type) : Type :=
| Returns (a : A)
| Aborts.
Arguments Returns {A} a.
Arguments Aborts {A}.

(** System calls issued on a descriptor, with the value the kernel
    returned.  The results are inputs of the model: every method below takes
    the return value of each system call it makes as an argument. *)
Inductive syscall : Type :=
| sys_fsync (res : Z)
| sys_ftruncate (new_size res : Z)
| sys_write (data : list Z) (size res : Z)
| sys_read (size res : Z)
| sys_lseek_set (where_ res : Z)
| sys_lseek_end (res : Z).

Module raii_fd.

(** [fd], [flags], [mode], [error] are the C++ members.  [k_pos], [k_len]
    and [k_log] are the kernel side of the open file: its seek position,
    its length in bytes, and the system calls issued so far (newest
    first). *)
Record t : Type := mk {
  fd : Z;
  flags : Z;
  mode : Z;
  error : bool;
  k_pos : Z;
  k_len : Z;
  k_log : list syscall
}.

(** [raii_fd() = default]: fd{-1}, flags{}, mode{}, error{false}. *)
Definition default : t := mk (-1) 0 0 false 0 0 [].

(** [raii_fd(path, flags, mode)] and [raii_fd(dird, path, flags, mode)]:
    [res] is what [::open] / [openat] returned, [len] the length of the
    file that was opened. *)
Definition open (flags_ mode_ res len : Z) : t :=
  mk res flags_ mode_ false 0 len [].

(** [operator=(raii_fd&&)]: swaps [fd], [flags] and [mode] (the open file
    goes with [fd]); [error] is not swapped.  Returns (this, move_from). *)
Definition move_assign (this move_from : t) : t * t :=
  (mk (fd move_from) (flags move_from) (mode move_from) (error this)
      (k_pos move_from) (k_len move_from) (k_log move_from),
   mk (fd this) (flags this) (mode this) (error move_from)
      (k_pos this) (k_len this) (k_log this)).

(** [raii_fd(raii_fd&& move_from) : raii_fd{} { *this = std::move(move_from); }] *)
Definition move_construct (move_from : t) : t * t :=
  move_assign default move_from.

Definition is_ok (f : t) : bool := negb ((fd f <? 0) || error f).

Definition get (f : t) : Z := fd f.

Definition with_error (f : t) (e : bool) : t :=
  mk (fd f) (flags f) (mode f) e (k_pos f) (k_len f) (k_log f).

Definition logged (f : t) (c : syscall) (pos len : Z) : t :=
  mk (fd f) (flags f) (mode f) (error f) pos len (c :: k_log f).

(** [flush]: [::fsync(fd) == 0]. *)
Definition flush (f : t) (res : Z) : bool * t :=
  (res =? 0, logged f (sys_fsync res) (k_pos f) (k_len f)).

(** [resize]: [::ftruncate(fd, new_size) == 0]. *)
Definition resize (f : t) (new_size res : Z) : bool * t :=
  (res =? 0,
   logged f (sys_ftruncate new_size res) (k_pos f)
          (if res =? 0 then new_size else k_len f)).

(** [write]: a negative result or a short count sets [error]. *)
Definition write (f : t) (data : list Z) (size res : Z) : bool * t :=
  let f1 := logged f (sys_write data size res)
                   (if 0 <? res then k_pos f + res else k_pos f)
                   (if 0 <? res then Z.max (k_len f) (k_pos f + res)
                    else k_len f) in
  if res <? 0 then (false, with_error f1 true)
  else if negb (to_size_t res =? size) then (false, with_error f1 true)
  else (true, f1).

(** [read]: a negative result or a short count sets [error]. *)
Definition read (f : t) (size res : Z) : bool * t :=
  let f1 := logged f (sys_read size res)
                   (if 0 <? res then k_pos f + res else k_pos f)
                   (k_len f) in
  if res <? 0 then (false, with_error f1 true)
  else if negb (to_size_t res =? size) then (false, with_error f1 true)
  else (true, f1).

(** [seek]: [lseek(fd, where, SEEK_SET)]; a negative result returns false
    and leaves [error] as it is. *)
Definition seek (f : t) (where_ res : Z) : bool * t :=
  let f1 := logged f (sys_lseek_set where_ res)
                   (if res <? 0 then k_pos f else res) (k_len f) in
  if res <? 0 then (false, f1)
  else (to_size_t res =? where_, f1).

(** [size_then_reset]: [lseek(fd, 0, SEEK_END)] then
    [lseek(fd, 0, SEEK_SET)]; the second call is made only when the first
    one did not fail. *)
Definition size_then_reset (f : t) (res_end res_set : Z) : option Z * t :=
  let f1 := logged f (sys_lseek_end res_end)
                   (if res_end <? 0 then k_pos f else res_end) (k_len f) in
  if res_end <? 0 then (None, with_error f1 true)
  else
    let f2 := logged f1 (sys_lseek_set 0 res_set)
                     (if res_set <? 0 then k_pos f1 else res_set)
                     (k_len f1) in
    if negb (res_set =? 0) then (None, with_error f2 true)
    else (Some (to_size_t res_end), f2).

(** A method call on a descriptor, with the results of the system calls it
    makes; [call] performs it and drops the return value. *)
Inductive method : Type :=
| m_flush (res : Z)
| m_resize (new_size res : Z)
| m_write (data : list Z) (size res : Z)
| m_read (size res : Z)
| m_seek (where_ res : Z)
| m_size_then_reset (res_end res_set : Z).

Definition call (f : t) (m : method) : t :=
  match m with
  | m_flush res => snd (flush f res)
  | m_resize new_size res => snd (resize f new_size res)
  | m_write data size res => snd (write f data size res)
  | m_read size res => snd (read f size res)
  | m_seek where_ res => snd (seek f where_ res)
  | m_size_then_reset res_end res_set => snd (size_then_reset f res_end res_set)
  end.

Definition calls (f : t) (ms : list method) : t := foldl call f ms.

End raii_fd.

(** [file_based_vector<T>]; [elem_size] is [sizeof(T)]. *)
Module file_based_vector.
Section elem.
Variable elem_size : Z.

Record t : Type := mk {
  used : Z;
  capacity : Z;
  iter : Z;
  capacity_chunk_size : Z;
  file : raii_fd.t;
  error : bool
}.

Definition with_error (v : t) (e : bool) : t :=
  mk (used v) (capacity v) (iter v) (capacity_chunk_size v) (file v) e.
Definition with_file (v : t) (f : raii_fd.t) : t :=
  mk (used v) (capacity v) (iter v) (capacity_chunk_size v) f (error v).
Definition with_iter (v : t) (i : Z) : t :=
  mk (used v) (capacity v) i (capacity_chunk_size v) (file v) (error v).
Definition with_used (v : t) (u : Z) : t :=
  mk u (capacity v) (iter v) (capacity_chunk_size v) (file v) (error v).
Definition with_capacity (v : t) (c : Z) : t :=
  mk (used v) c (iter v) (capacity_chunk_size v) (file v) (error v).

(** The four counters are [std::size_t] values. *)
Definition wf (v : t) : Prop :=
  is_size_t (used v) /\ is_size_t (capacity v) /\
  is_size_t (iter v) /\ is_size_t (capacity_chunk_size v).

Definition size (v : t) : Z := used v.
Definition current (v : t) : Z := iter v.
Definition is_ok (v : t) : bool := negb (error v) && raii_fd.is_ok (file v).

(** [flush]; [res] is the result of [fsync]. *)
Definition flush (v : t) (res : Z) : bool * t :=
  if error v then (false, v)
  else let '(ok, f) := raii_fd.flush (file v) res in (ok, with_file v f).

(** [reserve_at(at, count)]; [rz] is the result of [ftruncate], consulted
    only when the file has to grow. *)
Definition reserve_at (v : t) (at_ count rz : Z) : outcome (option Z * t) :=
  if error v then Returns (None, v)
  else if size_add at_ count <? at_ then Returns (None, v)
  else if used v <? at_ then Returns (None, with_error v true)
  else
    if capacity v <? size_add at_ count then
      let delta := size_sub (size_add at_ count) (capacity v) in
      if capacity_chunk_size v =? 0 then Aborts
      else
        let num_new_items :=
          size_mul
            (size_sub (size_add delta (capacity_chunk_size v)) 1
             / capacity_chunk_size v)
            (capacity_chunk_size v) in
        if size_add num_new_items (capacity v) <? size_add at_ count
        then Aborts
        else
          let new_cap := size_add (capacity v) num_new_items in
          if new_cap <? size_add at_ count then Returns (None, v)
          else
            let '(ok, f) :=
              raii_fd.resize (file v) (size_mul new_cap elem_size) rz in
            if negb ok then Returns (None, with_error (with_file v f) true)
            else
              let v1 := with_capacity (with_file v f) new_cap in
              Returns (Some at_,
                       with_used v1 (Z.max (used v1) (size_add at_ count)))
    else
      Returns (Some at_, with_used v (Z.max (used v) (size_add at_ count))).

(** [reserve(count)]: [reserve_at(used, count)], then [iter = used], read
    after [reserve_at] has updated [used]. *)
Definition reserve (v : t) (count rz : Z) : outcome (option Z * t) :=
  match reserve_at v (used v) count rz with
  | Returns (Some start, v1) => Returns (Some start, with_iter v1 (used v1))
  | Returns (None, v1) => Returns (None, v1)
  | Aborts => Aborts
  end.

(** [write_at(start, arr, count)]; [r_seek], [r_write], [r_back] are the
    results of the first [lseek], the [write] and the second [lseek]. *)
Definition write_at (v : t) (start : Z) (arr : list Z) (count : Z)
           (r_seek r_write r_back : Z) : option Z * t :=
  if error v then (None, v)
  else if used v <? start then (None, v)
  else
    let '(ok1, f1) := raii_fd.seek (file v) (size_mul elem_size start) r_seek in
    if negb ok1 then (None, with_error (with_file v f1) true)
    else
      let '(ok2, f2) := raii_fd.write f1 arr (size_mul count elem_size) r_write in
      if negb ok2 then (None, with_error (with_file v f2) true)
      else
        let '(ok3, f3) := raii_fd.seek f2 (size_mul elem_size (iter v)) r_back in
        if negb ok3 then (None, with_error (with_file v f3) true)
        else (Some start, with_file v f3).

(** [write(arr, count)]. *)
Definition write (v : t) (arr : list Z) (count : Z)
           (rz r_seek r_write r_back : Z) : outcome (option Z * t) :=
  match reserve_at v (iter v) count rz with
  | Aborts => Aborts
  | Returns (None, v1) => Returns (None, v1)
  | Returns (Some start, v1) =>
      if negb (start =? iter v1) then Aborts
      else
        let old_iter := iter v1 in
        let v2 := with_iter v1 (size_add (iter v1) count) in
        match write_at v2 old_iter arr count r_seek r_write r_back with
        | (None, v3) => Returns (None, with_iter v3 old_iter)
        | (Some r, v3) => Returns (Some r, v3)
        end
  end.

(** [read_at(start, count)]; [alloc_ok] tells whether [new T[count]]
    succeeded (it cannot when [count * sizeof(T)] does not fit a
    [size_t]); [buf] is what the kernel stored into the buffer. *)
Definition read_at (v : t) (start count : Z) (alloc_ok : bool)
           (r_seek r_read : Z) (buf : list Z) (r_back : Z)
  : outcome (option (list Z) * t) :=
  if error v then Returns (None, v)
  else if used v <? size_add start count then Returns (None, v)
  else if (size_t_mod <=? count * elem_size) || negb alloc_ok then Aborts
  else
    let '(ok1, f1) := raii_fd.seek (file v) (size_mul elem_size start) r_seek in
    if negb ok1 then Returns (None, with_error (with_file v f1) true)
    else
      let '(ok2, f2) := raii_fd.read f1 (size_mul count elem_size) r_read in
      if negb ok2 then Returns (None, with_error (with_file v f2) true)
      else
        let '(ok3, f3) := raii_fd.seek f2 (size_mul elem_size (iter v)) r_back in
        if negb ok3 then Returns (None, with_error (with_file v f3) true)
        else Returns (Some buf, with_file v f3).

(** [read(count)]. *)
Definition read (v : t) (count : Z) (alloc_ok : bool)
           (r_seek r_read : Z) (buf : list Z) (r_back : Z)
  : outcome (option (list Z) * t) :=
  if error v then Returns (None, v)
  else
    let old_iter := iter v in
    let v1 := with_iter v (size_add (iter v) count) in
    match read_at v1 old_iter count alloc_ok r_seek r_read buf r_back with
    | Aborts => Aborts
    | Returns (None, v2) => Returns (None, with_iter v2 old_iter)
    | Returns (Some d, v2) => Returns (Some d, v2)
    end.

(** [peek(count)]. *)
Definition peek (v : t) (count : Z) (alloc_ok : bool)
           (r_seek r_read : Z) (buf : list Z) (r_back : Z)
  : outcome (option (list Z) * t) :=
  if error v then Returns (None, v)
  else read_at v (iter v) count alloc_ok r_seek r_read buf r_back.

(** [move_to(start)]. *)
Definition move_to (v : t) (start r_seek : Z) : bool * t :=
  if error v then (false, v)
  else if used v <? start then (false, v)
  else if iter v =? start then (true, v)
  else
    let v1 := with_iter v start in
    let '(ok, f) := raii_fd.seek (file v1) (size_mul (iter v1) elem_size) r_seek in
    if negb ok then (false, with_error (with_file v1 f) true)
    else (true, with_file v1 f).

(** [file_based_vector(raii_fd file, used, capacity_chunk_size)];
    [sizeof(T)] is at least 1. *)
Definition construct (file_ : raii_fd.t) (used_ capacity_chunk_size_ : Z)
           (res_end res_set : Z) : t :=
  let f := fst (raii_fd.move_construct file_) in
  let v := mk used_ 0 0 capacity_chunk_size_ f (negb (raii_fd.is_ok f)) in
  if error v then v
  else
    let '(sz, f1) := raii_fd.size_then_reset f res_end res_set in
    match sz with
    | None => with_error (with_file v f1) true
    | Some n =>
        let v1 := with_capacity (with_file v f1) (n / elem_size) in
        if capacity v1 <? used v1 then with_error v1 true else v1
    end.

(** A method call on a vector, with the results of the system calls it
    may make.  [call] performs it; the boolean tells whether the method
    reported success (a position, a buffer, or [true]). *)
Inductive method : Type :=
| m_reserve (count rz : Z)
| m_write (arr : list Z) (count rz r_seek r_write r_back : Z)
| m_write_at (start : Z) (arr : list Z) (count r_seek r_write r_back : Z)
| m_read (count : Z) (alloc_ok : bool) (r_seek r_read : Z) (buf : list Z) (r_back : Z)
| m_read_at (start count : Z) (alloc_ok : bool) (r_seek r_read : Z)
            (buf : list Z) (r_back : Z)
| m_peek (count : Z) (alloc_ok : bool) (r_seek r_read : Z) (buf : list Z) (r_back : Z)
| m_move_to (start r_seek : Z)
| m_flush (res : Z).

Definition reported {A : Type} (r : outcome (option A * t)) : outcome (bool * t) :=
  match r with
  | Returns (Some _, v) => Returns (true, v)
  | Returns (None, v) => Returns (false, v)
  | Aborts => Aborts
  end.

Definition call (v : t) (m : method) : outcome (bool * t) :=
  match m with
  | m_reserve count rz => reported (reserve v count rz)
  | m_write arr count rz r_seek r_write r_back =>
      reported (write v arr count rz r_seek r_write r_back)
  | m_write_at start arr count r_seek r_write r_back =>
      reported (Returns (write_at v start arr count r_seek r_write r_back))
  | m_read count alloc_ok r_seek r_read buf r_back =>
      reported (read v count alloc_ok r_seek r_read buf r_back)
  | m_read_at start count alloc_ok r_seek r_read buf r_back =>
      reported (read_at v start count alloc_ok r_seek r_read buf r_back)
  | m_peek count alloc_ok r_seek r_read buf r_back =>
      reported (peek v count alloc_ok r_seek r_read buf r_back)
  | m_move_to start r_seek => Returns (move_to v start r_seek)
  | m_flush res => Returns (flush v res)
  end.

Fixpoint calls (v : t) (ms : list method) : outcome (list bool * t) :=
  match ms with
  | [] => Returns ([], v)
  | m :: ms' =>
      match call v m with
      | Returns (b, v1) =>
          match calls v1 ms' with
          | Returns (bs, v2) => Returns (b :: bs, v2)
          | Aborts => Aborts
          end
      | Aborts => Aborts
      end
  end.

(** The [std::size_t] arguments of a call are [std::size_t] values. *)
Definition args_in_range (m : method) : Prop :=
  match m with
  | m_reserve count _ => is_size_t count
  | m_write _ count _ _ _ _ => is_size_t count
  | m_write_at start _ count _ _ _ => is_size_t start /\ is_size_t count
  | m_read count _ _ _ _ _ => is_size_t count
  | m_read_at start count _ _ _ _ _ => is_size_t start /\ is_size_t count
  | m_peek count _ _ _ _ _ => is_size_t count
  | m_move_to start _ => is_size_t start
  | m_flush _ => True
  end.

(** The counters in order: [iter <= used <= capacity]. *)
Definition counters_ok (v : t) : Prop :=
  wf v /\ iter v <= used v /\ used v <= capacity v.

End elem.
End file_based_vector.

End util.

(** ** dedup::volume *)

Module dedup.

(** [dedup::config]: the parsed sidecar.  The header declaring these
    structures is not part of the sources at hand; the fields are the ones
    [dedup_volume.cc] reads and writes. *)
Module config.
Record loaded_general_info : Type := mk_info {
  block_header_size : Z;
  record_header_size : Z;
  dedup_block_header_size : Z;
  dedup_record_header_size : Z
}.
Record loaded_block_section : Type := mk_block {
  block_begin : Z; block_end : Z; block_path : list Z
}.
Record loaded_record_section : Type := mk_record {
  record_begin : Z; record_end : Z; record_path : list Z
}.
Record loaded_data_section : Type := mk_data {
  data_index : Z; data_blocksize : Z; data_path : list Z; data_end : Z
}.
Record loaded_unfinished_record : Type := mk_unfinished {
  VolSessionId : Z;
  VolSessionTime : Z;
  FileIndex : Z;
  Stream : Z;
  DataIdx : Z;
  file_offset : Z;
  size : Z
}.
Record loaded_config : Type := mk_config {
  info : loaded_general_info;
  blockfiles : list loaded_block_section;
  recordfiles : list loaded_record_section;
  datafiles : list loaded_data_section;
  unfinished : list loaded_unfinished_record
}.
End config.

(** [record]: the key of an unfinished record. *)
Record record : Type := mk_key {
  VolSessionId : Z;
  VolSessionTime : Z;
  FileIndex : Z;
  Stream : Z
}.

(** [write_loc]; the member [end] is spelled [end_]. *)
Record write_loc : Type := mk_loc {
  file_index : Z;
  current : Z;
  end_ : Z
}.

#[global] Instance record_eq_dec : EqDecision record.
Proof. solve_decision. Defined.

#[global] Instance record_countable : Countable record.
Proof.
  refine (inj_countable'
            (fun r => (VolSessionId r, VolSessionTime r, FileIndex r, Stream r))
            (fun p => let '(a, b, c, d) := p in mk_key a b c d) _).
  intros []; reflexivity.
Defined.

Section volume.
(** Modulus of the unsigned integer type of [write_loc::current],
    [write_loc::end], [file_offset] and [size]. *)
Variable off_mod : Z.

(** [sizeof] of the four on-disk headers. *)
Variable sizeof_bareos_block_header : Z.
Variable sizeof_bareos_record_header : Z.
Variable sizeof_block_header : Z.
Variable sizeof_record_header : Z.

(** [volume_config], its constructor from a parsed sidecar, and the
    sections its three file lists are written back as. *)
Variable volume_config : Type.
Variable make_volume_config : config.loaded_config -> volume_config.
Variable block_sections : volume_config -> list config.loaded_block_section.
Variable record_sections : volume_config -> list config.loaded_record_section.
Variable data_sections : volume_config -> list config.loaded_data_section.

(** The codec, [config::to_bytes] and [config::from_bytes]. *)
Variable to_bytes :
  config.loaded_general_info ->
  list config.loaded_data_section ->
  list config.loaded_record_section ->
  list config.loaded_block_section ->
  list config.loaded_unfinished_record -> list Z.
Variable from_bytes : list Z -> option config.loaded_config.

Definition my_general_info : config.loaded_general_info :=
  config.mk_info sizeof_bareos_block_header sizeof_bareos_record_header
                 sizeof_block_header sizeof_record_header.

(** The members of [volume] that [load_config] and
    [write_current_config] touch; [configfile_fd] is the descriptor number
    [configfile.fd.get()].  The offset of the open file is the kernel's:
    what the calls on the descriptor return is an argument of the
    functions below. *)
Record volume : Type := mk_volume {
  vol_config : volume_config;
  unfinished_records : gmap record write_loc;
  error : bool;
  configfile_fd : Z
}.

Definition with_unfinished (v : volume) (m : gmap record write_loc) : volume :=
  mk_volume (vol_config v) m (error v) (configfile_fd v).
Definition with_config (v : volume) (c : volume_config) : volume :=
  mk_volume c (unfinished_records v) (error v) (configfile_fd v).
Definition with_error (v : volume) (e : bool) : volume :=
  mk_volume (vol_config v) (unfinished_records v) e (configfile_fd v).

(** One row of the unfinished table, as [write_current_config] emits it. *)
Definition unfinished_row (e : record * write_loc)
  : config.loaded_unfinished_record :=
  config.mk_unfinished
    (VolSessionId (fst e)) (VolSessionTime (fst e)) (FileIndex (fst e))
    (Stream (fst e)) (file_index (snd e)) (current (snd e))
    ((end_ (snd e) - current (snd e)) mod off_mod).

(** The key and the location [load_config] builds from a row. *)
Definition row_key (rec : config.loaded_unfinished_record) : record :=
  mk_key (config.VolSessionId rec) (config.VolSessionTime rec)
         (config.FileIndex rec) (config.Stream rec).
Definition row_loc (rec : config.loaded_unfinished_record) : write_loc :=
  mk_loc (config.DataIdx rec) (config.file_offset rec)
         ((config.file_offset rec + config.size rec) mod off_mod).

(** The invariant on an unfinished entry: [current <= end], both values of
    the offset type. *)
Definition loc_in_range (loc : write_loc) : Prop :=
  0 <= current loc /\ current loc <= end_ loc /\ end_ loc < off_mod.

(** The bytes [write_current_config] serialises. *)
Definition current_config_bytes (v : volume) : list Z :=
  to_bytes my_general_info
           (data_sections (vol_config v))
           (record_sections (vol_config v))
           (block_sections (vol_config v))
           (unfinished_row <$> map_to_list (unfinished_records v)).

(** [write_current_config]; [r_trunc], [r_seek], [r_write] are the
    results of [ftruncate], [lseek] and [write], each call made only when
    the previous one succeeded.  Returns the bytes handed to [write]. *)
Definition write_current_config (v : volume) (r_trunc r_seek r_write : Z)
  : list Z * volume :=
  let bytes := current_config_bytes v in
  if negb (r_trunc =? 0) then (bytes, with_error v true)
  else if negb (r_seek =? 0) then (bytes, with_error v true)
  else if negb (r_write =? Z.of_nat (length bytes)) then (bytes, with_error v true)
  else (bytes, v).

(** The loop over [loaded_config->unfinished]: [emplace] each row, stop
    at the first key that is already present. *)
Fixpoint emplace_unfinished (rows : list config.loaded_unfinished_record)
         (m : gmap record write_loc) : bool * gmap record write_loc :=
  match rows with
  | [] => (true, m)
  | rec :: rest =>
      match m !! row_key rec with
      | Some _ => (false, m)
      | None => emplace_unfinished rest (<[row_key rec := row_loc rec]> m)
      end
  end.

(** [load_config]; [config_end] and [config_start] are the results of the
    two [lseek] calls, [r_read] the result of [read], [data] the bytes the
    kernel delivered into the buffer of [config_end - config_start]
    bytes. *)
Definition load_config (v : volume) (config_end config_start r_read : Z)
           (data : list Z) : bool * volume :=
  if negb (config_start =? 0) || (config_end <? config_start) then (false, v)
  else
    let bytes := resize (Z.to_nat (config_end - config_start)) 0 data in
    if negb (r_read =? Z.of_nat (length bytes)) then (false, v)
    else
      match from_bytes bytes with
      | None => (false, v)
      | Some loaded_config =>
          if negb (Z.of_nat (length (config.blockfiles loaded_config)) =? 1)
          then (false, v)
          else if negb (Z.of_nat (length (config.recordfiles loaded_config)) =? 1)
          then (false, v)
          else if negb (config.block_header_size (config.info loaded_config)
                        =? sizeof_bareos_block_header)
                  || negb (config.dedup_block_header_size (config.info loaded_config)
                           =? sizeof_block_header)
          then (false, v)
          else if negb (config.record_header_size (config.info loaded_config)
                        =? sizeof_bareos_record_header)
                  || negb (config.dedup_record_header_size (config.info loaded_config)
                           =? sizeof_record_header)
          then (false, v)
          else
            match emplace_unfinished (config.unfinished loaded_config)
                                     (unfinished_records v) with
            | (false, m) => (false, with_unfinished v m)
            | (true, m) =>
                (true, with_config (with_unfinished v m)
                                   (make_volume_config loaded_config))
            end
      end.

End volume.

Arguments mk_volume {volume_config} _ _ _ _.
Arguments vol_config {volume_config} _.
Arguments unfinished_records {volume_config} _.
Arguments error {volume_config} _.
Arguments configfile_fd {volume_config} _.
Arguments with_unfinished {volume_config} _ _.
Arguments with_config {volume_config} _ _.
Arguments with_error {volume_config} _ _.

End dedup.

(** ** channel *)

Module channel.

(** How a call on an endpoint ends when it is run on its own, the peer
    standing still: it returns; or it has to wait for the peer (for the
    mutex it holds, or on the condition variable until the peer changes the
    predicate); or it dereferences a null [shared] pointer or indexes
    [storage] out of range; or an exception leaves it ([std::length_error]
    or [std::bad_alloc] from an allocation). *)
Inductive outcome (A : Type) : Type :=
| Ret (a : A)
| Waits
| Fault
| Throws.
Arguments Ret {A} a.
Arguments Waits {A}.
Arguments Fault {A}.
Arguments Throws {A}.

#[global] Instance outcome_bind : MBind outcome := fun A B k m =>
  match m with
  | Ret a => k a
  | Waits => Waits
  | Fault => Fault
  | Throws => Throws
  end.

(** [wrapping_inc]. *)
Definition wrapping_inc (num max : Z) : Z :=
  let result := size_add num 1 in
  if result =? max then 0 else result.

Section chan.
Variable T : Type.
(** A value-initialised [T], what [std::vector<T> storage(capacity)] is
    filled with. *)
Variable T_init : T.

(** [data<T>]; [mutex_held] tells whether another thread owns [mutex].
    The condition variable carries no state. *)
Record data : Type := mk_data {
  size : Z;
  d_capacity : Z;
  storage : list T;
  mutex_held : bool;
  in_alive : bool;
  out_alive : bool
}.

(** The objects [std::shared_ptr<data<T>>] point to; a null pointer is
    [None]. *)
Abbreviation loc := nat.
Abbreviation heap := (gmap nat data).

(** [out<T>]. *)
Record out : Type := mk_out {
  o_shared : option loc;
  read_pos : Z;
  o_old_size : Z;
  o_capacity : Z;
  o_closed : bool
}.

(** [in<T>], spelled [inp]. *)
Record inp : Type := mk_in {
  i_shared : option loc;
  write_pos : Z;
  i_old_size : Z;
  i_capacity : Z;
  i_closed : bool
}.

(** [out() = default] and [in() = default]. *)
Definition out_default : out := mk_out None 0 0 0 true.
Definition in_default : inp := mk_in None 0 0 0 true.

(** [operator=(out&&)] and [operator=(in&&)] swap the five members;
    results are (this, moved). *)
Definition out_move_assign (this moved : out) : out * out := (moved, this).
Definition in_move_assign (this moved : inp) : inp * inp := (moved, this).

(** [out(out&& moved) : out()] and [in(in&& moved) : in()]. *)
Definition out_move_construct (moved : out) : out * out :=
  out_move_assign out_default moved.
Definition in_move_construct (moved : inp) : inp * inp :=
  in_move_assign in_default moved.

(** [out::empty]. *)
Definition empty (o : out) : bool := o_closed o.

(** Field updates. *)
Definition set_size (d : data) (n : Z) : data :=
  mk_data n (d_capacity d) (storage d) (mutex_held d) (in_alive d) (out_alive d).
Definition set_storage (d : data) (s : list T) : data :=
  mk_data (size d) (d_capacity d) s (mutex_held d) (in_alive d) (out_alive d).
Definition set_in_alive (d : data) (b : bool) : data :=
  mk_data (size d) (d_capacity d) (storage d) (mutex_held d) b (out_alive d).
Definition set_out_alive (d : data) (b : bool) : data :=
  mk_data (size d) (d_capacity d) (storage d) (mutex_held d) (in_alive d) b.

(** [*shared]. *)
Definition deref (p : option loc) (h : heap) : outcome (loc * data) :=
  match p with
  | None => Fault
  | Some l => match h !! l with Some d => Ret (l, d) | None => Fault end
  end.

(** [storage[pos]], read and written. *)
Definition slot (s : list T) (pos : Z) : outcome T :=
  match s !! Z.to_nat pos with Some v => Ret v | None => Fault end.
Definition set_slot (s : list T) (pos : Z) (v : T) : outcome (list T) :=
  if (Z.to_nat pos <? length s)%nat then Ret (<[Z.to_nat pos := v]> s) else Fault.

(** [std::unique_lock lock(shared->mutex)]: the locking constructor; it
    returns once the mutex is owned, so [owns_lock()] is true afterwards. *)
Definition unique_lock (d : data) : outcome bool :=
  if mutex_held d then Waits else Ret true.

(** [cv.wait(lock, pred)] with the peer standing still. *)
Definition cv_wait (pred : bool) : outcome unit :=
  if pred then Ret tt else Waits.

(** [data(capacity)]: [storage(capacity)] allocates [capacity] elements;
    [alloc_ok] tells whether it got them (it throws [std::length_error]
    when [capacity] exceeds [max_size()] and [std::bad_alloc] when memory
    is short). *)
Definition data_new (capacity : Z) (alloc_ok : bool) : outcome data :=
  if alloc_ok
  then Ret (mk_data 0 capacity (replicate (Z.to_nat capacity) T_init)
                    false false false)
  else Throws.

(** [out::get]. *)
Definition get (o : out) (h : heap) : outcome (option T * out * heap) :=
  if o_closed o then Ret (None, o, h)
  else
    result ← (if 0 <? o_old_size o
               then p ← deref (o_shared o) h;
                    v ← slot (storage (snd p)) (read_pos o); Ret (Some v)
               else Ret None);
    p ← deref (o_shared o) h;
    let '(l, d) := p in
    unique_lock d ;;
    cv_wait ((0 <? size d) || negb (in_alive d)) ;;
    if 0 <? size d then
      result ← (match result with
                 | Some v => Ret (Some v)
                 | None => v ← slot (storage d) (read_pos o); Ret (Some v)
                 end);
      let d1 := set_size d (size_sub (size d) 1) in
      Ret (result,
           mk_out (o_shared o) (wrapping_inc (read_pos o) (o_capacity o))
                  (size d1) (o_capacity o) (o_closed o),
           <[l := d1]> h)
    else
      Ret (result,
           mk_out (o_shared o) (read_pos o) 0 (o_capacity o) true,
           <[l := set_out_alive d false]> h).

(** The loop of [get_all] and [try_get_all]: [n] elements from [pos]. *)
Fixpoint drain (s : list T) (pos capacity : Z) (n : nat)
  : outcome (list T * Z) :=
  match n with
  | O => Ret ([], pos)
  | S n' =>
      v ← slot s pos;
      r ← drain s (wrapping_inc pos capacity) capacity n';
      Ret (v :: fst r, snd r)
  end.

(** [out::get_all]. *)
Definition get_all (o : out) (h : heap) : outcome (option (list T) * out * heap) :=
  if o_closed o then Ret (None, o, h)
  else
    p ← deref (o_shared o) h;
    let '(l, d) := p in
    unique_lock d ;;
    cv_wait ((0 <? size d) || negb (in_alive d)) ;;
    if 0 <? size d then
      r ← drain (storage d) (read_pos o) (o_capacity o) (Z.to_nat (size d));
      Ret (Some (fst r),
           mk_out (o_shared o) (snd r) 0 (o_capacity o) (o_closed o),
           <[l := set_size d 0]> h)
    else
      Ret (None,
           mk_out (o_shared o) (read_pos o) 0 (o_capacity o) true,
           <[l := set_out_alive d false]> h).

(** [out::try_get]. *)
Definition try_get (o : out) (h : heap) : outcome (option T * out * heap) :=
  if o_closed o then Ret (None, o, h)
  else
    result ← (if 0 <? o_old_size o
               then p ← deref (o_shared o) h;
                    v ← slot (storage (snd p)) (read_pos o); Ret (Some v)
               else Ret None);
    p ← deref (o_shared o) h;
    let '(l, d) := p in
    owns_lock ← unique_lock d;
    if owns_lock : bool then
      if 0 <? size d then
        result ← (match result with
                   | Some v => Ret (Some v)
                   | None => v ← slot (storage d) (read_pos o); Ret (Some v)
                   end);
        let d1 := set_size d (size_sub (size d) 1) in
        Ret (result,
             mk_out (o_shared o) (wrapping_inc (read_pos o) (o_capacity o))
                    (size d1) (o_capacity o) (o_closed o),
             <[l := d1]> h)
      else if negb (in_alive d) then
        Ret (result,
             mk_out (o_shared o) (read_pos o) 0 (o_capacity o) true,
             <[l := set_out_alive d false]> h)
      else Ret (result, o, h)
    else Ret (result, o, h).

(** [out::try_get_all]. *)
Definition try_get_all (o : out) (h : heap)
  : outcome (option (list T) * out * heap) :=
  if o_closed o then Ret (None, o, h)
  else
    p ← deref (o_shared o) h;
    let '(l, d) := p in
    unique_lock d ;;
    if 0 <? size d then
      r ← drain (storage d) (read_pos o) (o_capacity o) (Z.to_nat (size d));
      Ret (Some (fst r),
           mk_out (o_shared o) (snd r) 0 (o_capacity o) (o_closed o),
           <[l := set_size d 0]> h)
    else if negb (in_alive d) then
      Ret (None,
           mk_out (o_shared o) (read_pos o) 0 (o_capacity o) true,
           <[l := set_out_alive d false]> h)
    else Ret (None, o, h).

(** [out::close]. *)
Definition out_close (o : out) (h : heap) : outcome (out * heap) :=
  if o_closed o then Ret (o, h)
  else
    p ← deref (o_shared o) h;
    let '(l, d) := p in
    unique_lock d ;;
    Ret (mk_out (o_shared o) (read_pos o) (o_old_size o) (o_capacity o) true,
         <[l := set_out_alive d false]> h).

(** [out::~out]. *)
Definition out_destroy (o : out) (h : heap) : outcome (out * heap) :=
  match o_shared o with
  | Some _ => out_close o h
  | None => Ret (o, h)
  end.

(** [out::out(std::shared_ptr<data<T>>)]. *)
Definition out_new (shared_ : option loc) (h : heap) : outcome (out * heap) :=
  p ← deref shared_ h;
  let '(l, d) := p in
  unique_lock d ;;
  Ret (mk_out shared_ 0 0 (d_capacity d) false, <[l := set_out_alive d true]> h).

(** The body shared by the two overloads of [in::put]; they differ in one
    assignment: when the consumer is gone, [put(const T&)] sets
    [old_size = capacity] and [put(T&&)] leaves [old_size]. *)
Definition put_body (refresh_on_failure : bool) (i : inp) (val : T) (h : heap)
  : outcome (bool * inp * heap) :=
  if i_closed i then Ret (false, i, h)
  else
    fast ← (if i_old_size i <? i_capacity i
             then p ← deref (i_shared i) h;
                  s ← set_slot (storage (snd p)) (write_pos i) val;
                  Ret (true, <[fst p := set_storage (snd p) s]> h)
             else Ret (false, h));
    let '(took_fast_path, h1) := fast in
    p ← deref (i_shared i) h1;
    let '(l, d) := p in
    unique_lock d ;;
    cv_wait ((size d <? i_capacity i) || negb (out_alive d)) ;;
    if out_alive d then
      s ← (if took_fast_path : bool then Ret (storage d)
            else set_slot (storage d) (write_pos i) val);
      let d1 := set_size (set_storage d s) (size_add (size d) 1) in
      Ret (true,
           mk_in (i_shared i) (wrapping_inc (write_pos i) (i_capacity i))
                 (size d1) (i_capacity i) (i_closed i),
           <[l := d1]> h1)
    else
      Ret (false,
           mk_in (i_shared i) (write_pos i)
                 (if refresh_on_failure then i_capacity i else i_old_size i)
                 (i_capacity i) true,
           <[l := set_in_alive d false]> h1).

(** [in::put(const T&)] and [in::put(T&&)]. *)
Definition put : inp -> T -> heap -> outcome (bool * inp * heap) := put_body true.
Definition put_move : inp -> T -> heap -> outcome (bool * inp * heap) := put_body false.

(** [in::wait_till_empty]. *)
Definition wait_till_empty (i : inp) (h : heap) : outcome (inp * heap) :=
  p ← deref (i_shared i) h;
  let '(l, d) := p in
  unique_lock d ;;
  cv_wait ((size d =? 0) || negb (out_alive d)) ;;
  if negb (out_alive d) then
    Ret (mk_in (i_shared i) (write_pos i) (size d) (i_capacity i) true,
         <[l := set_in_alive d false]> h)
  else
    Ret (mk_in (i_shared i) (write_pos i) (size d) (i_capacity i) (i_closed i), h).

(** [in::close]. *)
Definition in_close (i : inp) (h : heap) : outcome (inp * heap) :=
  if i_closed i then Ret (i, h)
  else
    p ← deref (i_shared i) h;
    let '(l, d) := p in
    unique_lock d ;;
    Ret (mk_in (i_shared i) (write_pos i) (i_old_size i) (i_capacity i) true,
         <[l := set_in_alive d false]> h).

(** [in::~in]. *)
Definition in_destroy (i : inp) (h : heap) : outcome (inp * heap) :=
  match i_shared i with
  | Some _ => in_close i h
  | None => Ret (i, h)
  end.

(** [in::in(std::shared_ptr<data<T>>)]. *)
Definition in_new (shared_ : option loc) (h : heap) : outcome (inp * heap) :=
  p ← deref shared_ h;
  let '(l, d) := p in
  unique_lock d ;;
  Ret (mk_in shared_ 0 0 (d_capacity d) false, <[l := set_in_alive d true]> h).

(** [std::make_shared<data<T>>(capacity)]: a fresh object, when the
    allocations succeed. *)
Definition make_shared (capacity : Z) (alloc_ok : bool) (h : heap)
  : outcome (loc * heap) :=
  d ← data_new capacity alloc_ok;
  let l := fresh (dom h) in Ret (l, <[l := d]> h).

(** [CreateBufferedChannel(capacity)]: the two endpoints are built on the
    shared object, moved into the returned pair, and the moved-from
    locals destroyed.  [alloc_ok] is the outcome of the allocations in
    [make_shared]. *)
Definition CreateBufferedChannel (capacity : Z) (alloc_ok : bool) (h : heap)
  : outcome (inp * out * heap) :=
  let capacity := if capacity =? 0 then 1 else capacity in
  p ← make_shared capacity alloc_ok h;
  let '(l, h1) := p in
  r1 ← in_new (Some l) h1;
  r2 ← out_new (Some l) (snd r1);
  let '(i, moved_in) := in_move_construct (fst r1) in
  let '(o, moved_out) := out_move_construct (fst r2) in
  r3 ← out_destroy moved_out (snd r2);
  r4 ← in_destroy moved_in (snd r3);
  Ret (i, o, snd r4).

(** *** A producer and a consumer on one channel

    The calls of the two threads, each run to completion before the next
    one starts, in any order. *)
Inductive call : Type :=
| Put (v : T)
| PutMove (v : T)
| Get
| CloseIn.

Inductive reply : Type :=
| PutReply (b : bool)
| GetReply (r : option T)
| CloseReply.

Record sys : Type := mk_sys {
  producer : inp;
  consumer : out;
  mem : heap
}.

Definition step (c : call) (s : sys) : outcome (reply * sys) :=
  match c with
  | Put v =>
      r ← put (producer s) v (mem s);
      Ret (PutReply r.1.1, mk_sys r.1.2 (consumer s) r.2)
  | PutMove v =>
      r ← put_move (producer s) v (mem s);
      Ret (PutReply r.1.1, mk_sys r.1.2 (consumer s) r.2)
  | Get =>
      r ← get (consumer s) (mem s);
      Ret (GetReply r.1.1, mk_sys (producer s) r.1.2 r.2)
  | CloseIn =>
      r ← in_close (producer s) (mem s);
      Ret (CloseReply, mk_sys r.1 (consumer s) r.2)
  end.

Fixpoint run (cs : list call) (s : sys) : outcome (list reply * sys) :=
  match cs with
  | [] => Ret ([], s)
  | c :: cs' =>
      r ← step c s;
      r' ← run cs' r.2;
      Ret (r.1 :: r'.1, r'.2)
  end.

(** The values of the [put] calls that returned true, in call order. *)
Fixpoint accepted (cs : list call) (rs : list reply) : list T :=
  match cs, rs with
  | Put v :: cs', PutReply true :: rs' => v :: accepted cs' rs'
  | PutMove v :: cs', PutReply true :: rs' => v :: accepted cs' rs'
  | _ :: cs', _ :: rs' => accepted cs' rs'
  | _, _ => []
  end.

(** The values the [get] calls returned, in call order. *)
Fixpoint delivered (rs : list reply) : list T :=
  match rs with
  | GetReply (Some v) :: rs' => v :: delivered rs'
  | _ :: rs' => delivered rs'
  | [] => []
  end.

(** A position that ran past the end of the buffer, brought back. *)
Definition wrap_pos (capacity x : Z) : Z :=
  if x <? capacity then x else x - capacity.

(** The [n] slots of the circular buffer from [pos] on. *)
Fixpoint ring (s : list T) (pos capacity : Z) (n : nat) : list T :=
  match n with
  | O => []
  | S n' =>
      match s !! Z.to_nat pos with
      | Some v => v :: ring s (wrapping_inc pos capacity) capacity n'
      | None => []
      end
  end.

(** The elements put and not yet taken, oldest first. *)
Definition buffered (s : sys) : list T :=
  match o_shared (consumer s) with
  | Some l =>
      match mem s !! l with
      | Some d => ring (storage d) (read_pos (consumer s))
                       (o_capacity (consumer s)) (Z.to_nat (size d))
      | None => []
      end
  | None => []
  end.

(** The invariant of a channel of capacity [C] between two calls: both
    endpoints hold the same object, nobody holds the mutex, the occupied
    slots are the [size] slots from [read_pos], [write_pos] is the slot
    after them, and each endpoint's cached size errs on its safe side. *)
Definition channel_inv (C : Z) (s : sys) (l : loc) (d : data) : Prop :=
  i_shared (producer s) = Some l /\
  o_shared (consumer s) = Some l /\
  mem s !! l = Some d /\
  0 < C < size_t_mod /\
  d_capacity d = C /\
  i_capacity (producer s) = C /\
  o_capacity (consumer s) = C /\
  Z.of_nat (length (storage d)) = C /\
  mutex_held d = false /\
  0 <= size d <= C /\
  0 <= read_pos (consumer s) < C /\
  write_pos (producer s) = wrap_pos C (read_pos (consumer s) + size d) /\
  (i_closed (producer s) = false -> size d <= i_old_size (producer s)) /\
  (o_closed (consumer s) = false -> o_old_size (consumer s) <= size d) /\
  i_closed (producer s) = negb (in_alive d).

(** *** Every method of the two endpoints

    Any method of either endpoint, run to completion, in any order. *)
Inductive method : Type :=
| m_put (v : T)
| m_put_move (v : T)
| m_wait_till_empty
| m_in_close
| m_get
| m_try_get
| m_get_all
| m_try_get_all
| m_out_close.

Inductive answer : Type :=
| a_put (b : bool)
| a_get (r : option T)
| a_get_all (r : option (list T))
| a_done.

Definition invoke (m : method) (s : sys) : outcome (answer * sys) :=
  match m with
  | m_put v =>
      r ← put (producer s) v (mem s);
      Ret (a_put r.1.1, mk_sys r.1.2 (consumer s) r.2)
  | m_put_move v =>
      r ← put_move (producer s) v (mem s);
      Ret (a_put r.1.1, mk_sys r.1.2 (consumer s) r.2)
  | m_wait_till_empty =>
      r ← wait_till_empty (producer s) (mem s);
      Ret (a_done, mk_sys r.1 (consumer s) r.2)
  | m_in_close =>
      r ← in_close (producer s) (mem s);
      Ret (a_done, mk_sys r.1 (consumer s) r.2)
  | m_get =>
      r ← get (consumer s) (mem s);
      Ret (a_get r.1.1, mk_sys (producer s) r.1.2 r.2)
  | m_try_get =>
      r ← try_get (consumer s) (mem s);
      Ret (a_get r.1.1, mk_sys (producer s) r.1.2 r.2)
  | m_get_all =>
      r ← get_all (consumer s) (mem s);
      Ret (a_get_all r.1.1, mk_sys (producer s) r.1.2 r.2)
  | m_try_get_all =>
      r ← try_get_all (consumer s) (mem s);
      Ret (a_get_all r.1.1, mk_sys (producer s) r.1.2 r.2)
  | m_out_close =>
      r ← out_close (consumer s) (mem s);
      Ret (a_done, mk_sys (producer s) r.1 r.2)
  end.

Fixpoint invoke_all (ms : list method) (s : sys) : outcome (list answer * sys) :=
  match ms with
  | [] => Ret ([], s)
  | m :: ms' =>
      r ← invoke m s;
      r' ← invoke_all ms' r.2;
      Ret (r.1 :: r'.1, r'.2)
  end.

(** The values of the [put] calls that returned true, in call order. *)
Fixpoint put_values (ms : list method) (ans : list answer) : list T :=
  match ms, ans with
  | m_put v :: ms', a_put true :: ans' => v :: put_values ms' ans'
  | m_put_move v :: ms', a_put true :: ans' => v :: put_values ms' ans'
  | _ :: ms', _ :: ans' => put_values ms' ans'
  | _, _ => []
  end.

(** The values handed to the consumer, in call order. *)
Fixpoint got_values (ans : list answer) : list T :=
  match ans with
  | a_get (Some v) :: ans' => v :: got_values ans'
  | a_get_all (Some vs) :: ans' => vs ++ got_values ans'
  | _ :: ans' => got_values ans'
  | [] => []
  end.

End chan.

Arguments m_put {T} v.
Arguments m_put_move {T} v.
Arguments m_wait_till_empty {T}.
Arguments m_in_close {T}.
Arguments m_get {T}.
Arguments m_try_get {T}.
Arguments m_get_all {T}.
Arguments m_try_get_all {T}.
Arguments m_out_close {T}.
Arguments a_put {T} b.
Arguments a_get {T} r.
Arguments a_get_all {T} r.
Arguments a_done {T}.

Arguments Put {T} v.
Arguments PutMove {T} v.
Arguments Get {T}.
Arguments CloseIn {T}.
Arguments PutReply {T} b.
Arguments GetReply {T} r.
Arguments CloseReply {T}.
Arguments mk_sys {T} _ _ _.
Arguments producer {T} _.
Arguments consumer {T} _.
Arguments mem {T} _.
Arguments mk_data {T} _ _ _ _ _ _.
Arguments size {T} _.
Arguments d_capacity {T} _.
Arguments storage {T} _.
Arguments mutex_held {T} _.
Arguments in_alive {T} _.
Arguments out_alive {T} _.

End channel.

(** * Properties *)

(** ** Word arithmetic *)

Lemma size_t_mod_eq : size_t_mod = 18446744073709551616.
Proof. reflexivity. Qed.

Lemma to_size_t_small z : is_size_t z -> to_size_t z = z.
Proof. intros H. apply Z.mod_small. exact H. Qed.

Lemma to_size_t_range z : is_size_t (to_size_t z).
Proof. apply Z.mod_pos_bound. rewrite size_t_mod_eq. lia. Qed.

Lemma size_add_small a b : is_size_t (a + b) -> size_add a b = a + b.
Proof. apply to_size_t_small. Qed.

Lemma size_add_overflow a b :
  is_size_t a -> is_size_t b -> size_t_mod <= a + b ->
  size_add a b = a + b - size_t_mod.
Proof.
  intros Ha Hb Hov. unfold size_add, to_size_t, is_size_t in *.
  symmetry. apply (Z.mod_unique _ _ 1); lia.
Qed.

Lemma to_size_t_shift z : size_t_mod <= z < 2 * size_t_mod -> to_size_t z = z - size_t_mod.
Proof.
  intros H. unfold to_size_t. symmetry. apply (Z.mod_unique _ _ 1); lia.
Qed.

Lemma size_sub_small a b : is_size_t (a - b) -> size_sub a b = a - b.
Proof. apply to_size_t_small. Qed.

(** The growth step of [reserve_at]: once the [ASSERT] holds, the new
    capacity is the old one plus the least positive multiple of the chunk
    that reaches the request. *)
Lemma chunk_growth cap req c :
  is_size_t cap -> is_size_t req -> is_size_t c -> cap < req -> c <> 0 ->
  let delta := size_sub req cap in
  let num_new_items := size_mul (size_sub (size_add delta c) 1 / c) c in
  ~ size_add num_new_items cap < req ->
  exists k, 1 <= k /\ size_add cap num_new_items = cap + k * c /\
            req <= cap + k * c /\
            forall j, 1 <= j -> req <= cap + j * c -> k <= j.
Proof.
  intros Hcap Hreq Hc Hlt Hc0 delta num_new_items Hassert.
  pose proof size_t_mod_eq as HM.
  unfold is_size_t in *.
  assert (Hd : delta = req - cap).
  { unfold delta, size_sub. apply to_size_t_small. unfold is_size_t. lia. }
  assert (HA : size_sub (size_add delta c) 1 = to_size_t (delta + c - 1)).
  { unfold size_sub, size_add, to_size_t. apply Zminus_mod_idemp_l. }
  destruct (Z_lt_le_dec (delta + c - 1) size_t_mod) as [Hfit | Hwrap].
  - rewrite to_size_t_small in HA by (unfold is_size_t; lia).
    set (q := (delta + c - 1) / c) in *.
    assert (Hq1 : c * q <= delta + c - 1) by (apply Z.mul_div_le; lia).
    assert (Hq2 : delta + c - 1 < c * Z.succ q) by (apply Z.mul_succ_div_gt; lia).
    assert (Hq0 : 1 <= q) by nia.
    assert (HN : num_new_items = q * c).
    { unfold num_new_items. rewrite HA. fold q. unfold size_mul.
      apply to_size_t_small. unfold is_size_t. nia. }
    destruct (Z_lt_le_dec (q * c + cap) size_t_mod) as [Hsum | Hsum].
    + exists q. rewrite HN. unfold size_add.
      rewrite to_size_t_small by (unfold is_size_t; nia).
      split; [lia |]. split; [lia |]. split; [nia |]. intros j Hj Hreqj. nia.
    + exfalso. apply Hassert. rewrite HN. unfold size_add.
      rewrite to_size_t_shift by nia. nia.
  - exfalso. apply Hassert.
    rewrite to_size_t_shift in HA by lia.
    assert (Hq : (delta + c - 1 - size_t_mod) / c = 0) by (apply Z.div_small; lia).
    unfold num_new_items. rewrite HA, Hq. unfold size_mul, size_add.
    rewrite Z.mul_0_l. rewrite (to_size_t_small 0) by (unfold is_size_t; lia).
    rewrite to_size_t_small by (unfold is_size_t; lia). lia.
Qed.

(** ** raii_fd *)

Module raii_fd_facts.
Import util util.raii_fd.

(** A failed [open] leaves a descriptor that is not ok. *)
Lemma open_failure_not_ok fl md res len :
  res < 0 -> is_ok (open fl md res len) = false.
Proof.
  intros H. unfold is_ok, open. simpl.
  destruct (Z.ltb_spec res 0); [reflexivity | lia].
Qed.

(** A [write] that returns false has set the error bit. *)
Lemma write_failure_sets_error f data sz res f' :
  write f data sz res = (false, f') -> error f' = true.
Proof.
  unfold write. intros H.
  destruct (res <? 0); [by inversion H |].
  destruct (negb (to_size_t res =? sz)); by inversion H.
Qed.

(** A [read] that returns false has set the error bit. *)
Lemma read_failure_sets_error f sz res f' :
  read f sz res = (false, f') -> error f' = true.
Proof.
  unfold read. intros H.
  destruct (res <? 0); [by inversion H |].
  destruct (negb (to_size_t res =? sz)); by inversion H.
Qed.

(** A failed [size_then_reset] has set the error bit. *)
Lemma size_then_reset_failure_sets_error f r1 r2 f' :
  size_then_reset f r1 r2 = (None, f') -> error f' = true.
Proof.
  unfold size_then_reset. intros H.
  destruct (r1 <? 0); [by inversion H |].
  destruct (negb (r2 =? 0)); by inversion H.
Qed.

(** No method clears the error bit or changes [fd]. *)
Lemma write_keeps_error f data sz res :
  error f = true -> error (snd (write f data sz res)) = true.
Proof.
  unfold write. intros H.
  destruct (res <? 0); [reflexivity |].
  destruct (negb (to_size_t res =? sz)); [reflexivity | exact H].
Qed.

Lemma read_keeps_error f sz res :
  error f = true -> error (snd (read f sz res)) = true.
Proof.
  unfold read. intros H.
  destruct (res <? 0); [reflexivity |].
  destruct (negb (to_size_t res =? sz)); [reflexivity | exact H].
Qed.

Lemma seek_keeps_error f w res : error (snd (seek f w res)) = error f.
Proof. unfold seek. destruct (res <? 0); reflexivity. Qed.

Lemma seek_keeps_fd f w res : fd (snd (seek f w res)) = fd f.
Proof. unfold seek. destruct (res <? 0); reflexivity. Qed.

(** A successful [seek] leaves the descriptor at [where_]. *)
Lemma seek_success_pos f w res f' :
  res < size_t_mod -> seek f w res = (true, f') -> k_pos f' = w.
Proof.
  unfold seek. intros Hr H.
  destruct (Z.ltb_spec res 0); [by inversion H |].
  inversion H as [[Heq Hf]]. simpl.
  destruct (Z.ltb_spec res 0); [lia |].
  apply Z.eqb_eq in Heq. rewrite to_size_t_small in Heq; [exact Heq |].
  split; lia.
Qed.

(** C4, at the failing input: descriptor 3 is open and healthy, [lseek]
    returns -1; [seek] returns false and [is_ok] still answers true. *)
Lemma seek_negative_lseek_leaves_is_ok :
  let f := open 0 0 3 0 in
  fst (seek f 16 (-1)) = false /\
  is_ok f = true /\
  is_ok (snd (seek f 16 (-1))) = true.
Proof. repeat split. Qed.

(** The same on every healthy descriptor and every failing [lseek]. *)
Lemma seek_failure_not_recorded f w res :
  res < 0 -> fst (seek f w res) = false /\ is_ok (snd (seek f w res)) = is_ok f.
Proof.
  intros H. unfold seek, is_ok.
  destruct (Z.ltb_spec res 0); [| lia]. split; reflexivity.
Qed.
End raii_fd_facts.

(** ** file_based_vector *)

Module file_based_vector_facts.
Import util util.file_based_vector.

Section elem.
Variable elem_size : Z.

(** What a successful [reserve_at] leaves behind. *)
Lemma reserve_at_success v a n rz start v' :
  wf v -> is_size_t a -> is_size_t n -> a + n < size_t_mod ->
  reserve_at elem_size v a n rz = Returns (Some start, v') ->
  start = a /\ a <= used v /\
  used v' = Z.max (used v) (a + n) /\ iter v' = iter v /\
  error v' = false /\
  capacity_chunk_size v' = capacity_chunk_size v /\
  (a + n <= capacity v -> capacity v' = capacity v /\ file v' = file v) /\
  (capacity v < a + n ->
   exists k, 1 <= k /\
     capacity v' = capacity v + k * capacity_chunk_size v /\
     a + n <= capacity v' /\
     forall j, 1 <= j -> a + n <= capacity v + j * capacity_chunk_size v ->
               k <= j).
Proof.
  intros (Hu & Hc & Hi & Hk) Ha Hn Hfit. unfold reserve_at.
  assert (Hsum : size_add a n = a + n).
  { apply size_add_small. unfold is_size_t in *. lia. }
  rewrite Hsum.
  destruct (error v) eqn:He; [discriminate |].
  destruct (Z.ltb_spec (a + n) a); [discriminate |].
  destruct (Z.ltb_spec (used v) a); [discriminate |].
  destruct (Z.ltb_spec (capacity v) (a + n)) as [Hgrow | Hroom].
  - destruct (Z.eqb_spec (capacity_chunk_size v) 0) as [| Hc0]; [discriminate |].
    match goal with
    | |- context [size_add ?N (capacity v) <? a + n] =>
        destruct (Z.ltb_spec (size_add N (capacity v)) (a + n)) as [| Has];
        [discriminate |]
    end.
    destruct (chunk_growth (capacity v) (a + n) (capacity_chunk_size v))
      as (k & Hk1 & Hcap & Hreach & Hleast);
      [done | unfold is_size_t in *; lia | done | done | done | lia |].
    rewrite Hcap.
    destruct (Z.ltb_spec (capacity v + k * capacity_chunk_size v) (a + n));
      [lia |].
    unfold raii_fd.resize.
    destruct (rz =? 0); simpl; [| discriminate].
    intros [= <- <-]. simpl.
    repeat (split; [first [reflexivity | lia | assumption] |]).
    intros _. exists k. auto.
  - intros [= <- <-]. simpl.
    repeat (split; [first [reflexivity | lia | assumption] |]).
    split; [done | lia].
Qed.

(** [reserve] returns whenever the request fits the present capacity. *)
Lemma reserve_within_capacity v n rz :
  wf v -> is_size_t n -> error v = false -> used v + n <= capacity v ->
  reserve elem_size v n rz
  = Returns (Some (used v),
             with_iter (with_used v (used v + n)) (used v + n)).
Proof.
  intros (Hu & Hc & Hi & Hk) Hn He Hroom. unfold reserve, reserve_at.
  unfold is_size_t in *.
  rewrite He, size_add_small by (unfold is_size_t; lia).
  destruct (Z.ltb_spec (used v + n) (used v)); [lia |].
  rewrite Z.ltb_irrefl.
  destruct (Z.ltb_spec (capacity v) (used v + n)); [lia |].
  simpl. rewrite Z.max_r by lia. reflexivity.
Qed.

(** C3, as the code has it: a [reserve] that returns a position returns the
    old [used], extends [used] by [n], leaves the capacity alone when the
    request fits and otherwise grows it by the least positive multiple of
    the chunk that reaches [used + n]; [iter] ends at the new [used]. *)
Theorem reserve_success v n rz start v' :
  wf v -> is_size_t n -> error v = false -> used v + n < size_t_mod ->
  reserve elem_size v n rz = Returns (Some start, v') ->
  start = used v /\
  used v' = used v + n /\
  iter v' = used v + n /\
  (used v + n <= capacity v -> capacity v' = capacity v) /\
  (capacity v < used v + n ->
   exists k, 1 <= k /\
     capacity v' = capacity v + k * capacity_chunk_size v /\
     used v + n <= capacity v' /\
     forall j, 1 <= j -> used v + n <= capacity v + j * capacity_chunk_size v ->
               k <= j).
Proof.
  intros Hwf Hn _ Hfit. unfold reserve.
  destruct (reserve_at elem_size v (used v) n rz) as [[[s |] v1] |] eqn:Hr;
    [| discriminate | discriminate].
  intros [= <- <-].
  destruct (reserve_at_success v (used v) n rz s v1) as
    (Hs & _ & Hused & _ & _ & _ & Hroom & Hgrow); try done.
  { apply Hwf. }
  assert (Hmax : used v1 = used v + n).
  { rewrite Hused. destruct Hn. lia. }
  simpl. rewrite Hmax.
  repeat (split; [first [assumption | reflexivity] |]).
  split; [intros H; apply Hroom; exact H | exact Hgrow].
Qed.

(** C6, as the code has it: [reserve] and [write] go through [reserve_at],
    which refuses a wrapping [at + count] before it touches anything. *)
Theorem overflow_refused_by_reserve_and_write v count rz arr r1 r2 r3 :
  wf v -> is_size_t count ->
  (size_t_mod <= used v + count ->
   reserve elem_size v count rz = Returns (None, v)) /\
  (size_t_mod <= iter v + count ->
   write elem_size v arr count rz r1 r2 r3 = Returns (None, v)).
Proof.
  intros (Hu & Hc & Hi & Hk) Hn. unfold reserve, write, reserve_at.
  split; intros Hov; destruct (error v); try reflexivity;
    rewrite size_add_overflow by assumption;
    unfold is_size_t in *.
  - destruct (Z.ltb_spec (used v + count - size_t_mod) (used v)); [done | lia].
  - destruct (Z.ltb_spec (iter v + count - size_t_mod) (iter v)); [done | lia].
Qed.

(** C7: a successful [write_at] keeps [iter], [used] and [capacity] and
    leaves the descriptor at [iter * sizeof(T)] (the [size_t] product the
    code seeks to, which is the exact product whenever that fits). *)
Theorem write_at_restores_position v start arr count r1 r2 r3 s v' :
  error v = false -> start <= used v -> is_ssize_t r3 ->
  write_at elem_size v start arr count r1 r2 r3 = (Some s, v') ->
  s = start /\
  iter v' = iter v /\ used v' = used v /\ capacity v' = capacity v /\
  raii_fd.k_pos (file v') = size_mul elem_size (iter v) /\
  (is_size_t (iter v * elem_size) ->
   raii_fd.k_pos (file v') = iter v * elem_size).
Proof.
  intros He Hstart Hr3. unfold write_at. rewrite He.
  destruct (Z.ltb_spec (used v) start); [lia |].
  destruct (raii_fd.seek (file v) _ r1) as [ok1 f1].
  destruct ok1; simpl; [| discriminate].
  destruct (raii_fd.write f1 arr _ r2) as [ok2 f2].
  destruct ok2; simpl; [| discriminate].
  destruct (raii_fd.seek f2 _ r3) as [ok3 f3] eqn:Hseek.
  destruct ok3; simpl; [| discriminate].
  intros [= <- <-]. simpl.
  assert (Hpos : raii_fd.k_pos f3 = size_mul elem_size (iter v)).
  { eapply raii_fd_facts.seek_success_pos; [| exact Hseek].
    unfold is_ssize_t in Hr3. rewrite size_t_mod_eq. lia. }
  repeat (split; [first [reflexivity | assumption] |]).
  intros Hfit. rewrite Hpos. unfold size_mul.
  rewrite Z.mul_comm. apply to_size_t_small. exact Hfit.
Qed.

End elem.

(** C3, counterexample: chunk 8, empty vector, [reserve(5)].  Everything
    but [iter] is as claimed: [iter] is 5, the new [used], and not 0, the
    [used] from before the call. *)
Lemma reserve_iter_is_new_used :
  let v := mk 0 0 0 8 (raii_fd.open 0 0 3 0) false in
  exists v', reserve 16 v 5 0 = Returns (Some 0, v') /\
             used v' = 5 /\ capacity v' = 8 /\
             iter v' = 5 /\ iter v' <> used v.
Proof. eexists. split; [vm_compute; reflexivity |]. simpl. repeat split; lia. Qed.

(** [reserve] does not return a position when the file cannot be grown:
    [ftruncate] fails, the vector is left in the error state. *)
Lemma reserve_fails_when_resize_fails :
  let v := mk 0 0 0 8 (raii_fd.open 0 0 3 0) false in
  exists v', reserve 16 v 5 (-1) = Returns (None, v') /\
             error v' = true /\ used v' = 0 /\ capacity v' = 0.
Proof. eexists. split; [vm_compute; reflexivity |]. repeat split. Qed.

(** Chunk 8, empty vector: writing 5 elements of 16 bytes grows the
    capacity to 8 and [used] to 5; writing 4 more grows the capacity to 16
    and [used] to 9, and [iter] is 9. *)
Lemma write_extends_in_chunks :
  let v0 := mk 0 0 0 8 (raii_fd.open 0 0 3 0) false in
  exists v1 v2,
    write 16 v0 (replicate 80 1) 5 0 0 80 80 = Returns (Some 0, v1) /\
    (used v1, capacity v1, iter v1) = (5, 8, 5) /\
    write 16 v1 (replicate 64 2) 4 0 80 64 144 = Returns (Some 5, v2) /\
    (used v2, capacity v2, iter v2) = (9, 16, 9) /\
    raii_fd.k_pos (file v2) = 144 /\ raii_fd.k_len (file v2) = 256.
Proof.
  do 2 eexists. split; [vm_compute; reflexivity |]. split; [reflexivity |].
  split; [vm_compute; reflexivity |]. repeat split.
Qed.

(** [read_at(1, 2^64 - 1)]: the wrapped sum is 0, the bound check lets it
    through, and the call ends in [new T[count]]. *)
Lemma read_at_overflow_passes_the_check :
  let v := mk 1 8 1 8 (raii_fd.open 0 0 3 128) false in
  size_add 1 (size_t_mod - 1) = 0 /\
  read_at 16 v 1 (size_t_mod - 1) true 16 0 [] 16 = Aborts.
Proof. split; reflexivity. Qed.

Lemma reserve_success_witness :
  let v := mk 5 8 5 8 (raii_fd.open 0 0 3 128) false in
  exists v', reserve 16 v 4 0 = Returns (Some 5, v') /\
             used v' = 9 /\ iter v' = 9 /\ capacity v' = 16.
Proof.
  intros v.
  assert (Hwf : wf v) by (vm_compute; intuition discriminate).
  assert (Hn : is_size_t 4) by (vm_compute; intuition discriminate).
  assert (Hfit : used v + 4 < size_t_mod) by reflexivity.
  exists (mk 9 16 9 8 (snd (raii_fd.resize (raii_fd.open 0 0 3 128) 256 0)) false).
  assert (Hrun : reserve 16 v 4 0
                 = Returns (Some 5, mk 9 16 9 8
                     (snd (raii_fd.resize (raii_fd.open 0 0 3 128) 256 0)) false))
    by (vm_compute; reflexivity).
  pose proof (reserve_success 16 v 4 0 5 _ Hwf Hn eq_refl Hfit Hrun)
    as (_ & Hused & Hiter & _ & Hgrow).
  repeat split; try assumption.
Defined.

(** C6, counterexample: [write_at(1, arr, 2^64 - 1)] on a healthy vector
    with one element of 16 bytes.  [start + count] wraps, nothing checks
    it: the call seeks, [write] is refused, and the vector is left with
    its error flag set and its descriptor moved. *)
Lemma write_at_overflow_changes_state :
  let v := mk 1 8 1 8 (raii_fd.open 0 0 3 128) false in
  size_t_mod <= 1 + (size_t_mod - 1) /\
  exists v', write_at 16 v 1 [] (size_t_mod - 1) 16 (-1) 0 = (None, v') /\
             error v = false /\ error v' = true /\ v' <> v.
Proof.
  split; [lia |]. eexists. split; [vm_compute; reflexivity |].
  repeat split. discriminate.
Qed.

Lemma overflow_refused_witness :
  let v := mk 1 8 1 8 (raii_fd.open 0 0 3 128) false in
  reserve 16 v (size_t_mod - 1) 0 = Returns (None, v) /\
  write 16 v [] (size_t_mod - 1) 0 0 0 0 = Returns (None, v).
Proof.
  intros v.
  assert (Hwf : wf v) by (vm_compute; intuition discriminate).
  assert (Hn : is_size_t (size_t_mod - 1)) by (vm_compute; intuition discriminate).
  destruct (overflow_refused_by_reserve_and_write 16 v (size_t_mod - 1) 0 [] 0 0 0 Hwf Hn)
    as [Hres Hwr].
  split; [apply Hres | apply Hwr]; vm_compute; discriminate.
Defined.

Lemma write_at_restores_position_witness :
  let v := mk 9 16 9 8 (raii_fd.open 0 0 3 256) false in
  exists v', write_at 16 v 2 [7; 7] 1 32 16 144 = (Some 2, v') /\
             iter v' = 9 /\ raii_fd.k_pos (file v') = 144.
Proof.
  intros v.
  assert (Hr : is_ssize_t 144) by (vm_compute; intuition discriminate).
  assert (Hstart : 2 <= used v) by (vm_compute; discriminate).
  destruct (write_at 16 v 2 [7; 7] 1 32 16 144) as [r v'] eqn:Hrun.
  assert (Hsome : r = Some 2) by (vm_compute in Hrun; congruence).
  subst r. exists v'. split; [reflexivity |].
  destruct (write_at_restores_position 16 v 2 [7; 7] 1 32 16 144 2 v'
              eq_refl Hstart Hr Hrun) as (_ & Hiter & _ & _ & _ & Hpos).
  split; [exact Hiter |]. apply Hpos. vm_compute. intuition discriminate.
Defined.

End file_based_vector_facts.

(** ** dedup::volume *)

Module volume_facts.
Import dedup.

Section volume.
Context (off_mod : Z).
Context (sizeof_bareos_block_header sizeof_bareos_record_header : Z).
Context (sizeof_block_header sizeof_record_header : Z).
Context (volume_config : Type).
Context (make_volume_config : config.loaded_config -> volume_config).
Context (block_sections : volume_config -> list config.loaded_block_section).
Context (record_sections : volume_config -> list config.loaded_record_section).
Context (data_sections : volume_config -> list config.loaded_data_section).
Context (to_bytes :
  config.loaded_general_info ->
  list config.loaded_data_section ->
  list config.loaded_record_section ->
  list config.loaded_block_section ->
  list config.loaded_unfinished_record -> list Z).
Context (from_bytes : list Z -> option config.loaded_config).

Local Abbreviation load_config :=
  (load_config off_mod sizeof_bareos_block_header sizeof_bareos_record_header
               sizeof_block_header sizeof_record_header
               volume_config make_volume_config from_bytes).
Local Abbreviation emplace_unfinished := (emplace_unfinished off_mod).
Local Abbreviation unfinished_row := (unfinished_row off_mod).
Local Abbreviation row_loc := (row_loc off_mod).
Local Abbreviation loc_in_range := (loc_in_range off_mod).
Local Abbreviation current_config_bytes :=
  (current_config_bytes off_mod sizeof_bareos_block_header
     sizeof_bareos_record_header sizeof_block_header sizeof_record_header
     volume_config block_sections record_sections data_sections to_bytes).
Local Abbreviation write_current_config :=
  (write_current_config off_mod sizeof_bareos_block_header
     sizeof_bareos_record_header sizeof_block_header sizeof_record_header
     volume_config block_sections record_sections data_sections to_bytes).
Local Abbreviation my_general_info :=
  (my_general_info sizeof_bareos_block_header sizeof_bareos_record_header
                   sizeof_block_header sizeof_record_header).

(** Writing a row and reading it back gives the entry. *)
Lemma row_round_trip k loc :
  loc_in_range loc ->
  row_key (unfinished_row (k, loc)) = k /\
  row_loc (unfinished_row (k, loc)) = loc.
Proof.
  intros (H0 & Hle & Hlt). destruct k, loc as [fi cur en]. simpl in *.
  split; [reflexivity |]. unfold row_loc. simpl. f_equal.
  rewrite Zplus_mod_idemp_r.
  replace (cur + (en - cur)) with en by lia.
  apply Z.mod_small. lia.
Qed.

(** The loop only ever adds entries. *)
Lemma emplace_unfinished_grows rows :
  forall m b m', emplace_unfinished rows m = (b, m') -> m ⊆ m'.
Proof.
  induction rows as [| rec rest IH]; intros m b m' H; simpl in H.
  - by inversion H.
  - destruct (m !! row_key rec) eqn:Hk.
    + by inversion H.
    + apply IH in H. etrans; [| exact H]. by apply insert_subseteq.
Qed.

(** One turn of the loop. *)
Lemma emplace_unfinished_cons rec rest (m : gmap record write_loc) :
  emplace_unfinished (rec :: rest) m
  = match m !! row_key rec with
    | Some _ => (false, m)
    | None => emplace_unfinished rest (<[row_key rec := row_loc rec]> m)
    end.
Proof. reflexivity. Qed.

(** Rows written from entries with distinct keys, none of them present,
    are all inserted. *)
Lemma emplace_unfinished_fresh (l : list (record * write_loc)) :
  forall m : gmap record write_loc,
    NoDup l.*1 ->
    Forall (fun e => loc_in_range e.2) l ->
    (forall e, e ∈ l -> m !! e.1 = None) ->
    emplace_unfinished (unfinished_row <$> l) m = (true, list_to_map l ∪ m).
Proof.
  induction l as [| [k loc] rest IH]; intros m Hnd Hrange Hfresh.
  - simpl. by rewrite (left_id_L ∅ (∪)).
  - rewrite fmap_cons in Hnd. apply NoDup_cons in Hnd as [Hk Hnd].
    apply Forall_cons in Hrange as [Hloc Hrange].
    destruct (row_round_trip k loc Hloc) as [Hkey Hval].
    assert (Hnone : m !! k = None).
    { apply (Hfresh (k, loc)). apply list_elem_of_here. }
    rewrite fmap_cons, emplace_unfinished_cons, Hkey, Hval, Hnone.
    rewrite IH; [| done | done |].
    + f_equal. rewrite list_to_map_cons, <- insert_union_l.
      symmetry. apply insert_union_r.
      by apply not_elem_of_list_to_map_1.
    + intros e He. rewrite lookup_insert_ne.
      * apply Hfresh. by apply list_elem_of_further.
      * intros ->. apply Hk. apply list_elem_of_fmap. by exists e.
Qed.

(** The rows written from a map, in whatever order the map is walked,
    load into an empty map as that same map. *)
Lemma emplace_unfinished_of_map (m : gmap record write_loc) :
  (forall k loc, m !! k = Some loc -> loc_in_range loc) ->
  forall l, l ≡ₚ map_to_list m ->
    emplace_unfinished (unfinished_row <$> l) ∅ = (true, m).
Proof.
  intros Hrange l Hl.
  assert (Hnd : NoDup l.*1).
  { rewrite Hl. apply NoDup_fst_map_to_list. }
  rewrite emplace_unfinished_fresh; [| done | |].
  - f_equal. rewrite (right_id_L ∅ (∪)).
    rewrite (list_to_map_proper l (map_to_list m)); [| done | done].
    apply list_to_map_to_list.
  - apply Forall_forall. intros [k loc] He. simpl.
    apply (Hrange k). apply elem_of_map_to_list. by rewrite <- Hl.
  - intros e _. apply lookup_empty.
Qed.

(** Where a failing loop stops: at the first row whose key is already in
    the table, with the rows before it inserted. *)
Lemma emplace_unfinished_stops rows :
  forall m m' : gmap record write_loc,
    emplace_unfinished rows m = (false, m') ->
    exists pre rec post,
      rows = pre ++ rec :: post /\
      emplace_unfinished pre m = (true, m') /\
      is_Some (m' !! row_key rec).
Proof.
  induction rows as [| rec rest IH]; intros m m' H.
  - discriminate.
  - rewrite emplace_unfinished_cons in H.
    destruct (m !! row_key rec) as [old |] eqn:Hk.
    + injection H as <-. exists [], rec, rest.
      split; [reflexivity |]. split; [reflexivity |]. by exists old.
    + apply IH in H as (pre & r & post & -> & Hpre & Hdup).
      exists (rec :: pre), r, post. split; [reflexivity |]. split; [| exact Hdup].
      by rewrite emplace_unfinished_cons, Hk.
Qed.

(** C1, as the code has it: a failed [load_config] leaves the
    configuration and the error flag alone, and it leaves the whole volume
    alone unless the failure is a duplicate key: both [lseek] calls and
    the [read] went well, the sidecar parsed, it has one block file and one
    record file and the header sizes of the running binary, and the loop
    over the unfinished rows met a row [rec] whose key was already in the
    table.  The rows before [rec] are then in the table. *)
Theorem load_config_failure v config_end config_start r_read data v' :
  load_config v config_end config_start r_read data = (false, v') ->
  vol_config v' = vol_config v /\
  error v' = error v /\
  (v' = v \/
   config_start = 0 /\ 0 <= config_end /\ r_read = config_end /\
   exists cfg pre rec post,
     from_bytes (resize (Z.to_nat config_end) 0 data) = Some cfg /\
     length (config.blockfiles cfg) = 1%nat /\
     length (config.recordfiles cfg) = 1%nat /\
     config.info cfg = my_general_info /\
     config.unfinished cfg = pre ++ rec :: post /\
     emplace_unfinished pre (unfinished_records v) = (true, unfinished_records v') /\
     is_Some (unfinished_records v' !! row_key rec)).
Proof.
  unfold dedup.load_config.
  destruct (Z.eqb_spec config_start 0) as [-> | Hstart]; simpl;
    [| intros [= <-]; split; [done | split; [done | by left]]].
  rewrite Z.sub_0_r.
  destruct (Z.ltb_spec config_end 0) as [Hneg | Hpos]; simpl;
    [intros [= <-]; split; [done | split; [done | by left]] |].
  rewrite length_resize, Z2Nat.id by lia.
  destruct (Z.eqb_spec r_read config_end) as [-> | Hread]; simpl;
    [| intros [= <-]; split; [done | split; [done | by left]]].
  destruct (from_bytes _) as [cfg |] eqn:Hparse;
    [| intros [= <-]; split; [done | split; [done | by left]]].
  destruct cfg as [[bs rs dbs drs] blocks records datas rows]. simpl.
  destruct (Z.eqb_spec (Z.of_nat (length blocks)) 1) as [Hb | Hb]; simpl;
    [| intros [= <-]; split; [done | split; [done | by left]]].
  destruct (Z.eqb_spec (Z.of_nat (length records)) 1) as [Hr | Hr]; simpl;
    [| intros [= <-]; split; [done | split; [done | by left]]].
  destruct (Z.eqb_spec bs sizeof_bareos_block_header) as [-> | H1]; simpl;
    [| intros [= <-]; split; [done | split; [done | by left]]].
  destruct (Z.eqb_spec dbs sizeof_block_header) as [-> | H2]; simpl;
    [| intros [= <-]; split; [done | split; [done | by left]]].
  destruct (Z.eqb_spec rs sizeof_bareos_record_header) as [-> | H3]; simpl;
    [| intros [= <-]; split; [done | split; [done | by left]]].
  destruct (Z.eqb_spec drs sizeof_record_header) as [-> | H4]; simpl;
    [| intros [= <-]; split; [done | split; [done | by left]]].
  destruct (emplace_unfinished rows (unfinished_records v)) as [[] m] eqn:Hloop;
    [discriminate |].
  intros [= <-]. simpl. split; [done |]. split; [done |]. right.
  apply emplace_unfinished_stops in Hloop as (pre & rec & post & -> & Hpre & Hdup).
  split; [done |]. split; [done |]. split; [done |].
  eexists _, pre, rec, post. split; [reflexivity |]. simpl.
  split; [lia |]. split; [lia |]. done.
Qed.

(** On success the configuration is the one built from the parsed
    sidecar. *)
Lemma load_config_true v config_end config_start r_read data v' :
  load_config v config_end config_start r_read data = (true, v') ->
  exists cfg,
    from_bytes (resize (Z.to_nat (config_end - config_start)) 0 data) = Some cfg /\
    vol_config v' = make_volume_config cfg /\
    emplace_unfinished (config.unfinished cfg) (unfinished_records v)
    = (true, unfinished_records v').
Proof.
  unfold dedup.load_config.
  repeat match goal with
         | |- context [if ?c then (false, v) else _] => destruct c; [discriminate |]
         end.
  destruct (from_bytes _) as [cfg |] eqn:Hparse; [| discriminate].
  repeat match goal with
         | |- context [if ?c then (false, v) else _] => destruct c; [discriminate |]
         end.
  destruct (emplace_unfinished _ _) as [[] m] eqn:Hloop; [| discriminate].
  intros [= <-]. exists cfg. done.
Qed.


End volume.

(** C1, counterexample: the sidecar holds the same unfinished row twice.
    [load_config] fails on the second row, and the first one stays in
    [unfinished_records], which was empty before the call. *)
Lemma load_config_duplicate_key_keeps_first_row :
  let row := config.mk_unfinished 1 1700000000 42 1 0 1500000 64000 in
  let cfg := config.mk_config (config.mk_info 24 12 32 48)
               [config.mk_block 0 1024 [98]] [config.mk_record 0 256 [114]]
               [config.mk_data 0 65536 [100] 2000000] [row; row] in
  let from_bytes := fun bytes : list Z =>
                      if decide (bytes = [1; 2; 3]) then Some cfg else None in
  let v := mk_volume cfg ∅ false 5 in
  exists v',
    load_config (2 ^ 64) 24 12 32 48 config.loaded_config id from_bytes
                v 3 0 3 [1; 2; 3] = (false, v') /\
    unfinished_records v = ∅ /\
    unfinished_records v' = {[ mk_key 1 1700000000 42 1 := mk_loc 0 1500000 1564000 ]} /\
    v' <> v.
Proof.
  eexists. split; [reflexivity |]. split; [reflexivity |]. split; [reflexivity |].
  intros H. apply (f_equal (fun x => unfinished_records x !! mk_key 1 1700000000 42 1)) in H.
  simpl in H. by rewrite lookup_insert_eq, lookup_empty in H.
Qed.

Lemma load_config_failure_witness :
  let cfg := config.mk_config (config.mk_info 24 12 32 99)
               [config.mk_block 0 1024 [98]] [config.mk_record 0 256 [114]]
               [config.mk_data 0 65536 [100] 2000000] [] in
  let old := config.mk_config (config.mk_info 24 12 32 48) [] [] [] [] in
  let from_bytes := fun bytes : list Z =>
                      if decide (bytes = [1; 2; 3]) then Some cfg else None in
  let v := mk_volume old ∅ false 5 in
  exists v',
    load_config (2 ^ 64) 24 12 32 48 config.loaded_config id from_bytes
                v 3 0 3 [1; 2; 3] = (false, v') /\
    vol_config v' = old /\ v' = v.
Proof.
  intros cfg old from_bytes v.
  destruct (load_config (2 ^ 64) 24 12 32 48 config.loaded_config id from_bytes
                        v 3 0 3 [1; 2; 3]) as [b v'] eqn:Hrun.
  assert (Hb : b = false) by (vm_compute in Hrun; congruence).
  subst b. exists v'. split; [reflexivity |].
  destruct (load_config_failure (2 ^ 64) 24 12 32 48
              config.loaded_config id from_bytes v 3 0 3 [1; 2; 3] v' Hrun)
    as (Hcfg & _ & [Hsame | (_ & _ & _ & c & pre & rec & post & Hparse & _ & _ & Hinfo & _)]).
  - split; [exact Hcfg | exact Hsame].
  - vm_compute in Hparse. injection Hparse as <-. discriminate Hinfo.
Defined.


End volume_facts.

(** ** channel *)

Module channel_facts.
Import channel.

Section chan.
Context (T : Type) (T_init : T).

Local Abbreviation heap := (gmap nat (data T)).

(** C9, as the code has it: when the allocations of [make_shared]
    succeed, [CreateBufferedChannel(capacity)] returns two open endpoints on
    one new object of capacity [max(capacity, 1)], holding no element, on
    which [in_alive] and [out_alive] are both true; when they fail, the
    exception leaves the function and no pair is returned. *)
Theorem CreateBufferedChannel_spec (capacity : Z) (h : heap) :
  is_size_t capacity ->
  (exists (l : nat) (i : inp) (o : out) (h' : heap) (d : data T),
     CreateBufferedChannel T T_init capacity true h = Ret (i, o, h') /\
     h !! l = None /\ h' !! l = Some d /\
     i_shared i = Some l /\ o_shared o = Some l /\
     i_closed i = false /\ o_closed o = false /\
     d_capacity d = Z.max capacity 1 /\
     i_capacity i = Z.max capacity 1 /\ o_capacity o = Z.max capacity 1 /\
     Z.of_nat (length (storage d)) = Z.max capacity 1 /\
     size d = 0 /\
     in_alive d = true /\ out_alive d = true) /\
  CreateBufferedChannel T T_init capacity false h = Throws.
Proof.
  intros [Hc0 _]. split; [| reflexivity].
  set (c := if capacity =? 0 then 1 else capacity).
  assert (Hc : c = Z.max capacity 1).
  { unfold c. destruct (Z.eqb_spec capacity 0); lia. }
  set (l := fresh (dom h)).
  assert (Hl : h !! l = None).
  { apply not_elem_of_dom. apply is_fresh. }
  exists l. unfold CreateBufferedChannel, make_shared, data_new. simpl.
  fold c. fold l.
  unfold in_new, out_new, deref. simpl.
  rewrite lookup_insert_eq. simpl.
  rewrite lookup_insert_eq. simpl.
  rewrite !insert_insert_eq.
  do 4 eexists. split; [reflexivity |].
  split; [exact Hl |]. split; [apply lookup_insert_eq |]. simpl.
  rewrite length_replicate.
  repeat (split; [first [done | lia] |]). done.
Qed.

(** C10: an endpoint that is closed and holds no object (as built by the
    default constructor, or left behind by the move constructor) answers
    [get], [try_get], [get_all] and [try_get_all] with nullopt and [put]
    with false; [close] and the destructor do nothing.  Each call returns
    on every heap, the empty one included, with the endpoint and the heap
    as they were. *)
Theorem closed_null_endpoint_is_inert (h : heap) (v : T) (o0 : out) (i0 : inp) :
  (out_move_construct o0).2 = out_default /\
  (in_move_construct i0).2 = in_default /\
  o_shared out_default = None /\ o_closed out_default = true /\
  i_shared in_default = None /\ i_closed in_default = true /\
  forall pos old cap,
    let o := mk_out None pos old cap true in
    let i := mk_in None pos old cap true in
    get T o h = Ret (None, o, h) /\
    try_get T o h = Ret (None, o, h) /\
    get_all T o h = Ret (None, o, h) /\
    try_get_all T o h = Ret (None, o, h) /\
    out_close T o h = Ret (o, h) /\
    out_destroy T o h = Ret (o, h) /\
    put T i v h = Ret (false, i, h) /\
    put_move T i v h = Ret (false, i, h) /\
    in_close T i h = Ret (i, h) /\
    in_destroy T i h = Ret (i, h).
Proof. repeat split. Qed.

(** [wait_till_empty] has no such guard: on the default endpoint it
    dereferences the null pointer. *)
Lemma wait_till_empty_on_default (h : heap) :
  wait_till_empty T in_default h = Fault.
Proof. reflexivity. Qed.

(** *** The circular buffer *)

Lemma wrapping_inc_in_range p C :
  0 <= p < C -> C < size_t_mod ->
  wrapping_inc p C = if p + 1 =? C then 0 else p + 1.
Proof.
  intros Hp HC. unfold wrapping_inc.
  rewrite size_add_small; [reflexivity | unfold is_size_t; lia].
Qed.

Lemma wrapping_inc_bound p C :
  0 <= p < C -> C < size_t_mod -> 0 <= wrapping_inc p C < C.
Proof.
  intros Hp HC. rewrite wrapping_inc_in_range by done.
  destruct (Z.eqb_spec (p + 1) C); lia.
Qed.

Lemma wrap_pos_inc C p k :
  0 <= p < C -> C < size_t_mod -> 0 <= k -> k + 1 < C + 1 ->
  wrap_pos C (wrapping_inc p C + k) = wrap_pos C (p + (k + 1)).
Proof.
  intros Hp HC Hk Hk'. rewrite wrapping_inc_in_range by done.
  unfold wrap_pos.
  destruct (Z.eqb_spec (p + 1) C);
    destruct (Z.ltb_spec (0 + k) C); destruct (Z.ltb_spec (p + 1 + k) C);
    destruct (Z.ltb_spec (p + (k + 1)) C); lia.
Qed.

Lemma ring_insert_other C (v : T) n :
  forall (s : list T) rp j,
    0 <= rp < C -> C < size_t_mod -> Z.of_nat n <= C -> 0 <= j ->
    (forall k, 0 <= k < Z.of_nat n -> wrap_pos C (rp + k) <> j) ->
    ring T (<[Z.to_nat j := v]> s) rp C n = ring T s rp C n.
Proof.
  induction n as [| n IH]; intros s rp j Hrp HC Hn Hj Hout; [reflexivity |].
  simpl. rewrite list_lookup_insert_ne.
  - destruct (s !! Z.to_nat rp); [| reflexivity]. f_equal.
    apply IH; [by apply wrapping_inc_bound | done | lia | done |].
    intros k Hk. rewrite wrap_pos_inc by lia. apply Hout. lia.
  - specialize (Hout 0 ltac:(lia)). unfold wrap_pos in Hout.
    destruct (Z.ltb_spec (rp + 0) C); lia.
Qed.

Lemma ring_snoc C n :
  forall (s : list T) rp x,
    0 <= rp < C -> C < size_t_mod -> Z.of_nat n < C ->
    Z.of_nat (length s) = C ->
    s !! Z.to_nat (wrap_pos C (rp + Z.of_nat n)) = Some x ->
    ring T s rp C (S n) = ring T s rp C n ++ [x].
Proof.
  induction n as [| n IH]; intros s rp x Hrp HC Hn Hlen Hx.
  - simpl. unfold wrap_pos in Hx. simpl in Hx.
    rewrite Z.add_0_r in Hx.
    destruct (Z.ltb_spec rp C); [| lia]. by rewrite Hx.
  - change (ring T s rp C (S (S n)))
      with (match s !! Z.to_nat rp with
            | Some v => v :: ring T s (wrapping_inc rp C) C (S n)
            | None => []
            end).
    change (ring T s rp C (S n))
      with (match s !! Z.to_nat rp with
            | Some v => v :: ring T s (wrapping_inc rp C) C n
            | None => []
            end).
    destruct (s !! Z.to_nat rp) eqn:Hhead.
    + rewrite (IH s (wrapping_inc rp C) x); [reflexivity | | done | lia | done |].
      * by apply wrapping_inc_bound.
      * rewrite wrap_pos_inc by lia.
        replace (rp + (Z.of_nat n + 1)) with (rp + Z.of_nat (S n)) by lia. done.
    + apply lookup_ge_None in Hhead. lia.
Qed.

Lemma wrap_pos_bound C x : 0 < C -> 0 <= x < C + C -> 0 <= wrap_pos C x < C.
Proof. intros HC Hx. unfold wrap_pos. destruct (Z.ltb_spec x C); lia. Qed.

Lemma wrap_pos_distinct C rp k n :
  0 <= rp < C -> 0 <= k < n -> n < C ->
  wrap_pos C (rp + k) <> wrap_pos C (rp + n).
Proof.
  intros Hrp Hk Hn. unfold wrap_pos.
  destruct (Z.ltb_spec (rp + k) C); destruct (Z.ltb_spec (rp + n) C); lia.
Qed.

Lemma wrapping_inc_wrap_pos C rp n :
  0 <= rp < C -> C < size_t_mod -> 0 <= n < C ->
  wrapping_inc (wrap_pos C (rp + n)) C = wrap_pos C (rp + (n + 1)).
Proof.
  intros Hrp HC Hn.
  rewrite wrapping_inc_in_range; [| apply wrap_pos_bound; lia | done].
  unfold wrap_pos.
  destruct (Z.ltb_spec (rp + n) C); destruct (Z.ltb_spec (rp + (n + 1)) C);
    match goal with |- context [?a =? ?b] => destruct (Z.eqb_spec a b) end; lia.
Qed.

(** Storing into the slot after the occupied ones appends to the buffer. *)
Lemma ring_store_next C (s : list T) rp n v :
  0 <= rp < C -> C < size_t_mod -> 0 <= n < C -> Z.of_nat (length s) = C ->
  ring T (<[Z.to_nat (wrap_pos C (rp + n)) := v]> s) rp C (Z.to_nat (n + 1))
  = ring T s rp C (Z.to_nat n) ++ [v] /\
  ring T (<[Z.to_nat (wrap_pos C (rp + n)) := v]> s) rp C (Z.to_nat n)
  = ring T s rp C (Z.to_nat n).
Proof.
  intros Hrp HC Hn Hlen.
  assert (Hwp : 0 <= wrap_pos C (rp + n) < C) by (apply wrap_pos_bound; lia).
  assert (Hsame : ring T (<[Z.to_nat (wrap_pos C (rp + n)) := v]> s) rp C (Z.to_nat n)
                  = ring T s rp C (Z.to_nat n)).
  { apply ring_insert_other; [done | done | lia | lia |].
    intros k Hk. apply wrap_pos_distinct; lia. }
  split; [| exact Hsame].
  replace (Z.to_nat (n + 1)) with (S (Z.to_nat n)) by lia.
  rewrite (ring_snoc C (Z.to_nat n) _ rp v); [by rewrite Hsame | done | done | lia | | ].
  - rewrite length_insert. done.
  - rewrite Z2Nat.id by lia. apply list_lookup_insert_eq. lia.
Qed.

Lemma set_slot_in_range (s : list T) pos v :
  0 <= pos < Z.of_nat (length s) ->
  set_slot T s pos v = Ret (<[Z.to_nat pos := v]> s).
Proof.
  intros H. unfold set_slot.
  destruct (Nat.ltb_spec (Z.to_nat pos) (length s)); [reflexivity | lia].
Qed.

Lemma slot_in_range (s : list T) pos :
  0 <= pos < Z.of_nat (length s) ->
  exists x, s !! Z.to_nat pos = Some x /\ slot T s pos = Ret x.
Proof.
  intros H. unfold slot.
  destruct (s !! Z.to_nat pos) as [x |] eqn:Hx; [eauto |].
  apply lookup_ge_None in Hx. lia.
Qed.

(** [put], either overload, on a channel that satisfies the invariant. *)
Lemma put_body_inv C refresh i o (h : heap) l d v ok i' h' :
  channel_inv T C (mk_sys i o h) l d ->
  put_body T refresh i v h = Ret (ok, i', h') ->
  exists d1,
    channel_inv T C (mk_sys i' o h') l d1 /\
    buffered T (mk_sys i' o h')
    = buffered T (mk_sys i o h) ++ (if ok then [v] else []).
Proof.
  intros (Hi & Ho & Hd & HC & Hdc & Hic & Hoc & Hlen & Hmx & Hsz & Hrp & Hwp
          & Hicache & Hocache & Hlive).
  simpl in *. unfold put_body, buffered. simpl. rewrite Ho, Hd.
  destruct (i_closed i) eqn:Hclosed.
  { intros [= <- <- <-]. exists d. rewrite Hd, app_nil_r.
    split; [| reflexivity]. unfold channel_inv. simpl. rewrite Hclosed. done. }
  specialize (Hicache eq_refl).
  assert (Hwpr : 0 <= wrap_pos C (read_pos o + size d) < C)
    by (apply wrap_pos_bound; lia).
  rewrite Hi, Hic, Hwp. unfold deref, unique_lock, cv_wait.
  (* the state after the optional early store *)
  set (s1 := <[Z.to_nat (wrap_pos C (read_pos o + size d)) := v]> (storage d)).
  assert (Hstep :
    forall (early : bool) (h1 : heap) (d0 : data T),
      h1 !! l = Some d0 -> size d0 = size d -> mutex_held d0 = false ->
      d_capacity d0 = C -> in_alive d0 = in_alive d ->
      storage d0 = (if early then s1 else storage d) ->
      (early = true -> size d < C) ->
      (forall l', l' <> l -> h1 !! l' = h !! l') ->
      (match h1 !! l with Some d2 => Ret (l, d2) | None => Fault end
       ≫= λ '(l0, d2),
         (if mutex_held d2 then Waits else Ret true) ;;
         (if (size d2 <? C) || negb (out_alive d2) then Ret () else Waits) ;;
         if out_alive d2
         then s ← (if early : bool then Ret (storage d2)
                   else set_slot T (storage d2) (wrap_pos C (read_pos o + size d)) v);
              Ret (true,
                   mk_in (Some l) (wrapping_inc (wrap_pos C (read_pos o + size d)) C)
                         (size (set_size T (set_storage T d2 s) (size_add (size d2) 1)))
                         C false,
                   <[l0 := set_size T (set_storage T d2 s) (size_add (size d2) 1)]> h1)
         else Ret (false,
                   mk_in (Some l) (wrap_pos C (read_pos o + size d))
                         (if refresh then C else i_old_size i) C true,
                   <[l0 := set_in_alive T d2 false]> h1))
      = Ret (ok, i', h') ->
      exists d1,
        channel_inv T C (mk_sys i' o h') l d1 /\
        match h' !! l with
        | Some d3 => ring T (storage d3) (read_pos o) (o_capacity o) (Z.to_nat (size d3))
        | None => []
        end
        = ring T (storage d) (read_pos o) (o_capacity o) (Z.to_nat (size d))
          ++ (if ok then [v] else [])).
  { intros early h1 d0 Hd0 Hsz0 Hmx0 Hdc0 Hlive0 Hst0 Hearly Hframe.
    rewrite Hd0. simpl. rewrite Hmx0, Hsz0. simpl.
    destruct (out_alive d0) eqn:Hout.
    - rewrite orb_false_r.
      destruct (Z.ltb_spec (size d) C) as [Hroom |]; simpl; [| discriminate].
      destruct (ring_store_next C (storage d) (read_pos o) (size d) v)
        as [Hpush _]; [lia | lia | lia | done |]. fold s1 in Hpush.
      assert (Hs : (if early then Ret (storage d0)
                    else set_slot T (storage d0) (wrap_pos C (read_pos o + size d)) v)
                   = Ret s1).
      { rewrite Hst0. destruct early; [reflexivity |].
        apply set_slot_in_range. lia. }
      rewrite Hs. simpl. rewrite size_add_small by (unfold is_size_t; lia).
      intros [= <- <- <-]. eexists. rewrite lookup_insert_eq, Hoc. simpl.
      split; [| exact Hpush].
      unfold channel_inv. simpl.
      split; [done |]. split; [done |]. split; [apply lookup_insert_eq |]. simpl.
      rewrite Hlive0, <- Hlive.
      unfold s1 at 1. rewrite length_insert.
      rewrite wrapping_inc_wrap_pos by lia.
      repeat (split; [first [done | lia] |]).
      split; [intros Hc; specialize (Hocache Hc); lia | done].
    - rewrite orb_true_r. simpl.
      intros [= <- <- <-]. eexists. rewrite lookup_insert_eq, Hoc, app_nil_r. simpl.
      rewrite Hsz0, Hst0.
      split.
      + unfold channel_inv. simpl.
        split; [done |]. split; [done |]. split; [apply lookup_insert_eq |]. simpl.
        rewrite Hsz0, Hst0.
        assert (Hl1 : Z.of_nat (length (if early then s1 else storage d)) = C).
        { destruct early; [unfold s1; rewrite length_insert |]; done. }
        repeat (split; [first [done | lia] |]). done.
      + destruct early; [| reflexivity].
        specialize (Hearly eq_refl).
        destruct (ring_store_next C (storage d) (read_pos o) (size d) v)
          as [_ Hkeep]; [lia | lia | lia | done |]. exact Hkeep. }
  destruct (Z.ltb_spec (i_old_size i) C) as [Hfast | Hslow].
  - rewrite Hd. simpl. rewrite set_slot_in_range by lia. simpl.
    apply (Hstep true _ (set_storage T d s1)); simpl;
      [apply lookup_insert_eq | done | done | done | done | done | lia |].
    intros l' Hl'. by rewrite lookup_insert_ne.
  - simpl. apply (Hstep false h d); try done.
Qed.

(** [get] on a channel that satisfies the invariant. *)
Lemma get_inv C i o (h : heap) l d r o' h' :
  channel_inv T C (mk_sys i o h) l d ->
  get T o h = Ret (r, o', h') ->
  exists d1,
    channel_inv T C (mk_sys i o' h') l d1 /\
    buffered T (mk_sys i o h)
    = match r with Some v => [v] | None => [] end ++ buffered T (mk_sys i o' h').
Proof.
  intros (Hi & Ho & Hd & HC & Hdc & Hic & Hoc & Hlen & Hmx & Hsz & Hrp & Hwp
          & Hicache & Hocache & Hlive).
  simpl in *. unfold get, buffered. simpl. rewrite Ho, Hd.
  destruct (o_closed o) eqn:Hclosed.
  { intros [= <- <- <-]. exists d. rewrite Ho, Hd. simpl.
    split; [| reflexivity]. unfold channel_inv. simpl. rewrite Hclosed. done. }
  specialize (Hocache eq_refl).
  unfold deref, unique_lock, cv_wait. rewrite Hd, Hoc.
  destruct (slot_in_range (storage d) (read_pos o)) as (x & Hx & Hslot); [lia |].
  assert (Hfast : (if 0 <? o_old_size o
                   then (Ret (l, d) ≫= λ p : nat * data T,
                           slot T (storage p.2) (read_pos o) ≫= λ v : T, Ret (Some v))
                   else Ret None)
                  = Ret (if 0 <? o_old_size o then Some x else None)).
  { destruct (0 <? o_old_size o); simpl; [by rewrite Hslot | done]. }
  rewrite Hfast. simpl. rewrite Hmx. simpl.
  destruct (Z.ltb_spec 0 (size d)) as [Hsome | Hnone]; simpl.
  - assert (Hres : match (if 0 <? o_old_size o then Some x else None) with
                   | Some v => Ret (Some v)
                   | None => slot T (storage d) (read_pos o) ≫= λ v : T, Ret (Some v)
                   end = Ret (Some x)).
    { destruct (0 <? o_old_size o); simpl; [done | by rewrite Hslot]. }
    rewrite Hres. simpl. rewrite size_sub_small by (unfold is_size_t; lia).
    intros [= <- <- <-]. eexists. simpl. rewrite lookup_insert_eq. simpl.
    split.
    + unfold channel_inv. simpl.
      split; [done |]. split; [done |]. split; [apply lookup_insert_eq |]. simpl.
      pose proof (wrapping_inc_bound (read_pos o) C Hrp ltac:(lia)).
      rewrite (wrap_pos_inc C (read_pos o) (size d - 1)) by lia.
      replace (size d - 1 + 1) with (size d) by lia.
      repeat (split; [first [done | lia] |]).
      split; [intros Hc; specialize (Hicache Hc); lia |].
      split; [lia | done].
    + replace (Z.to_nat (size d)) with (S (Z.to_nat (size d - 1))) by lia.
      simpl. by rewrite Hx.
  - assert (Hzero : size d = 0) by lia.
    destruct (Z.ltb_spec 0 (o_old_size o)); [lia |].
    destruct (in_alive d) eqn:Hin; simpl; [discriminate |].
    intros [= <- <- <-]. eexists. simpl. rewrite lookup_insert_eq. simpl.
    rewrite Hzero. simpl. split; [| reflexivity].
    unfold channel_inv. simpl.
    split; [done |]. split; [done |]. split; [apply lookup_insert_eq |]. simpl.
    rewrite Hin, Hzero in *.
    repeat (split; [first [done | lia] |]). done.
Qed.

(** [in::close] on a channel that satisfies the invariant. *)
Lemma in_close_inv C i o (h : heap) l d i' h' :
  channel_inv T C (mk_sys i o h) l d ->
  in_close T i h = Ret (i', h') ->
  exists d1,
    channel_inv T C (mk_sys i' o h') l d1 /\
    buffered T (mk_sys i' o h') = buffered T (mk_sys i o h).
Proof.
  intros (Hi & Ho & Hd & HC & Hdc & Hic & Hoc & Hlen & Hmx & Hsz & Hrp & Hwp
          & Hicache & Hocache & Hlive).
  simpl in *. unfold in_close, buffered. simpl. rewrite Ho, Hd.
  destruct (i_closed i) eqn:Hclosed.
  { intros [= <- <-]. exists d. rewrite Hd.
    split; [| reflexivity]. unfold channel_inv. simpl. rewrite Hclosed. done. }
  unfold deref, unique_lock. rewrite Hi, Hd. simpl. rewrite Hmx. simpl.
  intros [= <- <-]. eexists. rewrite lookup_insert_eq. simpl.
  split; [| reflexivity].
  unfold channel_inv. simpl.
  split; [done |]. split; [done |]. split; [apply lookup_insert_eq |]. simpl.
  repeat (split; [first [done | lia] |]). done.
Qed.

(** One call keeps the invariant and moves one element at most. *)
Lemma step_inv C c (s : sys T) l d r s1 :
  channel_inv T C s l d ->
  step T c s = Ret (r, s1) ->
  exists d1,
    channel_inv T C s1 l d1 /\
    buffered T s ++ accepted T [c] [r] = delivered T [r] ++ buffered T s1.
Proof.
  destruct s as [i o h]. intros Hinv. destruct c as [v | v | |]; simpl.
  - destruct (put T i v h) as [[[ok i'] h'] | | |] eqn:Hput; simpl; [| done | done | done].
    intros [= <- <-].
    destruct (put_body_inv C true i o h l d v ok i' h' Hinv Hput) as (d1 & Hinv1 & Hbuf).
    exists d1. split; [done |]. rewrite Hbuf. by destruct ok.
  - destruct (put_move T i v h) as [[[ok i'] h'] | | |] eqn:Hput; simpl; [| done | done | done].
    intros [= <- <-].
    destruct (put_body_inv C false i o h l d v ok i' h' Hinv Hput) as (d1 & Hinv1 & Hbuf).
    exists d1. split; [done |]. rewrite Hbuf. by destruct ok.
  - destruct (get T o h) as [[[res o'] h'] | | |] eqn:Hget; simpl; [| done | done | done].
    intros [= <- <-].
    destruct (get_inv C i o h l d res o' h' Hinv Hget) as (d1 & Hinv1 & Hbuf).
    exists d1. split; [done |]. rewrite Hbuf, app_nil_r. by destruct res.
  - destruct (in_close T i h) as [[i' h'] | | |] eqn:Hclose; simpl; [| done | done | done].
    intros [= <- <-].
    destruct (in_close_inv C i o h l d i' h' Hinv Hclose) as (d1 & Hinv1 & Hbuf).
    exists d1. split; [done |]. by rewrite Hbuf, app_nil_r.
Qed.

Lemma accepted_cons c r cs rs :
  accepted T (c :: cs) (r :: rs) = accepted T [c] [r] ++ accepted T cs rs.
Proof. destruct c, r as [[] | |]; reflexivity. Qed.

Lemma delivered_cons r rs :
  delivered T (r :: rs) = delivered T [r] ++ delivered T rs.
Proof. destruct r as [| [] |]; reflexivity. Qed.

(** Any run keeps the invariant; what was buffered plus what was accepted
    is what was delivered plus what is still buffered. *)
Lemma run_inv C cs :
  forall (s : sys T) l d rs s',
    channel_inv T C s l d ->
    run T cs s = Ret (rs, s') ->
    exists d',
      channel_inv T C s' l d' /\
      buffered T s ++ accepted T cs rs = delivered T rs ++ buffered T s'.
Proof.
  induction cs as [| c cs IH]; intros s l d rs s' Hinv Hall; simpl in Hall.
  - injection Hall as <- <-. exists d. split; [done |]. by rewrite app_nil_r.
  - destruct (step T c s) as [[r s1] | | |] eqn:Hstep; simpl in Hall; [| done | done | done].
    destruct (run T cs s1) as [[rs1 s2] | | |] eqn:Hrun; simpl in Hall; [| done | done | done].
    injection Hall as <- <-.
    destruct (step_inv C c s l d r s1 Hinv Hstep) as (d1 & Hinv1 & Hone).
    destruct (IH s1 l d1 rs1 s2 Hinv1 Hrun) as (d2 & Hinv2 & Hrest).
    exists d2. split; [done |].
    rewrite accepted_cons, delivered_cons.
    rewrite app_assoc, Hone, <- app_assoc, Hrest, app_assoc. done.
Qed.

(** [put] returns as soon as there is room or the consumer is gone. *)
Lemma put_returns C refresh i o (h : heap) l d v :
  channel_inv T C (mk_sys i o h) l d ->
  size d < C \/ out_alive d = false ->
  exists r, put_body T refresh i v h = Ret r.
Proof.
  intros (Hi & Ho & Hd & HC & Hdc & Hic & Hoc & Hlen & Hmx & Hsz & Hrp & Hwp
          & Hicache & Hocache & Hlive) Hready.
  simpl in *. unfold put_body.
  destruct (i_closed i) eqn:Hclosed; [eauto |].
  specialize (Hicache eq_refl).
  assert (Hwpr : 0 <= wrap_pos C (read_pos o + size d) < C)
    by (apply wrap_pos_bound; lia).
  rewrite Hi, Hic, Hwp. unfold deref, unique_lock, cv_wait.
  destruct (Z.ltb_spec (i_old_size i) C) as [Hfast | Hslow].
  - rewrite Hd. simpl. rewrite set_slot_in_range by lia. simpl.
    rewrite lookup_insert_eq. simpl. rewrite Hmx. simpl.
    destruct (Z.ltb_spec (size d) C); [| lia]. simpl.
    destruct (out_alive d); simpl; eauto.
  - simpl. rewrite Hd. simpl. rewrite Hmx. simpl.
    destruct (out_alive d) eqn:Hout; simpl.
    + destruct Hready as [Hroom | ?]; [| done].
      destruct (Z.ltb_spec (size d) C); [| lia]. simpl.
      rewrite set_slot_in_range by lia. simpl. eauto.
    + rewrite orb_true_r. simpl. eauto.
Qed.

(** [get] returns as soon as there is an element or the producer is
    gone. *)
Lemma get_returns C i o (h : heap) l d :
  channel_inv T C (mk_sys i o h) l d ->
  0 < size d \/ in_alive d = false ->
  exists r, get T o h = Ret r.
Proof.
  intros (Hi & Ho & Hd & HC & Hdc & Hic & Hoc & Hlen & Hmx & Hsz & Hrp & Hwp
          & Hicache & Hocache & Hlive) Hready.
  simpl in *. unfold get.
  destruct (o_closed o) eqn:Hclosed; [eauto |].
  specialize (Hocache eq_refl).
  unfold deref, unique_lock, cv_wait. rewrite Ho, Hd.
  destruct (slot_in_range (storage d) (read_pos o)) as (x & Hx & Hslot); [lia |].
  destruct (Z.ltb_spec 0 (o_old_size o)); simpl; rewrite Hslot; simpl;
    rewrite Hmx; simpl.
  - destruct (Z.ltb_spec 0 (size d)); [| lia]. simpl. eauto.
  - destruct (Z.ltb_spec 0 (size d)); simpl; [eauto |].
    destruct Hready as [? | ->]; [lia |]. simpl. eauto.
Qed.

(** What [CreateBufferedChannel] returns when the allocations succeed. *)
Lemma CreateBufferedChannel_result (capacity : Z) (h : heap) :
  CreateBufferedChannel T T_init capacity true h
  = let c := if capacity =? 0 then 1 else capacity in
    let l := fresh (dom h) in
    Ret (mk_in (Some l) 0 0 c false, mk_out (Some l) 0 0 c false,
         <[l := mk_data 0 c (replicate (Z.to_nat c) T_init) false true true]> h).
Proof.
  unfold CreateBufferedChannel, make_shared, data_new, in_new, out_new, deref.
  simpl.
  rewrite lookup_insert_eq. simpl. rewrite lookup_insert_eq. simpl.
  by rewrite !insert_insert_eq.
Qed.

(** A new channel satisfies the invariant and holds nothing. *)
Lemma CreateBufferedChannel_inv (capacity : Z) (alloc_ok : bool) (h : heap) i o h' :
  is_size_t capacity ->
  CreateBufferedChannel T T_init capacity alloc_ok h = Ret (i, o, h') ->
  exists l d,
    channel_inv T (Z.max capacity 1) (mk_sys i o h') l d /\
    buffered T (mk_sys i o h') = [].
Proof.
  intros [Hc0 Hc1]. destruct alloc_ok; [| discriminate].
  rewrite CreateBufferedChannel_result. simpl.
  assert (Hc : (if capacity =? 0 then 1 else capacity) = Z.max capacity 1).
  { destruct (Z.eqb_spec capacity 0); lia. }
  rewrite Hc. intros [= <- <- <-].
  do 2 eexists. unfold buffered, channel_inv. simpl.
  rewrite lookup_insert_eq. simpl.
  split; [| reflexivity].
  split; [done |]. split; [done |]. split; [reflexivity |]. simpl.
  rewrite length_replicate. unfold wrap_pos, is_size_t in *.
  destruct (Z.ltb_spec (0 + 0) (Z.max capacity 1)); [| lia].
  pose proof size_t_mod_eq.
  repeat (split; [first [done | lia] |]). done.
Qed.

Lemma ring_nil_inv C (s : list T) rp n :
  0 <= rp < Z.of_nat (length s) -> ring T s rp C n = [] -> n = O.
Proof.
  intros Hrp. destruct n as [| n]; [done |]. simpl.
  destruct (slot_in_range s rp Hrp) as (x & -> & _). discriminate.
Qed.

(** C2: for every sequence of [put], [get] and producer [close] calls on a
    new channel, each run to completion, the values accepted by [put] are
    the values returned by [get], in the same order, followed by the
    elements still in the buffer; so once the producer has closed and the
    buffer is drained the two sequences are equal, and the next [get]
    returns nullopt. *)
Theorem channel_fifo (capacity : Z) (alloc_ok : bool) (h0 : heap) i o h cs rs s' :
  is_size_t capacity ->
  CreateBufferedChannel T T_init capacity alloc_ok h0 = Ret (i, o, h) ->
  run T cs (mk_sys i o h) = Ret (rs, s') ->
  accepted T cs rs = delivered T rs ++ buffered T s' /\
  (i_closed (producer s') = true -> buffered T s' = [] ->
   delivered T rs = accepted T cs rs /\
   exists s'', step T Get s' = Ret (GetReply None, s'')).
Proof.
  intros Hcap Hnew Hrun.
  destruct (CreateBufferedChannel_inv capacity alloc_ok h0 i o h Hcap Hnew)
    as (l & d & Hinv & Hempty).
  destruct (run_inv (Z.max capacity 1) cs _ l d rs s' Hinv Hrun)
    as (d' & Hinv' & Hfifo).
  rewrite Hempty in Hfifo. simpl in Hfifo.
  split; [exact Hfifo |].
  intros Hclosed Hdrained. split; [by rewrite Hfifo, Hdrained, app_nil_r |].
  destruct s' as [i' o' h'].
  destruct Hinv' as (Hi & Ho & Hd & HC & Hdc & Hic & Hoc & Hlen & Hmx & Hsz & Hrp
                     & Hwp & Hicache & Hocache & Hlive).
  simpl in *. unfold buffered in Hdrained. simpl in Hdrained.
  rewrite Ho, Hd in Hdrained.
  apply ring_nil_inv in Hdrained; [| lia].
  assert (Hzero : size d' = 0) by lia.
  assert (Hin : in_alive d' = false).
  { rewrite Hclosed in Hlive. by destruct (in_alive d'). }
  assert (Hget : exists o'' h'', get T o' h' = Ret (None, o'', h'')).
  { unfold get. destruct (o_closed o') eqn:Hoclosed; [eauto |].
    specialize (Hocache eq_refl).
    destruct (Z.ltb_spec 0 (o_old_size o')); [lia |]. simpl.
    unfold deref, unique_lock, cv_wait. rewrite Ho, Hd. simpl.
    rewrite Hmx, Hzero, Hin. simpl. eauto. }
  destruct Hget as (o'' & h'' & Hget). simpl. rewrite Hget. simpl. eauto.
Qed.

(** Reading slots never waits. *)
Lemma slot_cases (s : list T) pos :
  (exists v, slot T s pos = Ret v) \/ slot T s pos = Fault.
Proof. unfold slot. destruct (s !! Z.to_nat pos); eauto. Qed.

Lemma drain_cases (s : list T) capacity n :
  forall pos, (exists r, drain T s pos capacity n = Ret r)
              \/ drain T s pos capacity n = Fault.
Proof.
  induction n as [| n IH]; intros pos; simpl; [eauto |].
  destruct (slot_cases s pos) as [[v ->] | ->]; simpl; [| eauto].
  destruct (IH (wrapping_inc pos capacity)) as [[r ->] | ->]; simpl; eauto.
Qed.

(** C5, as the code has it: [try_get] and [try_get_all] take the mutex
    with the locking constructor, so while the peer holds it they do not
    return; once it is free they never wait, and on an empty buffer with
    the producer alive they return nullopt and change nothing. *)
Theorem try_get_waits_for_the_mutex_only (o : out) (h : heap) (l : nat) (d : data T) :
  o_closed o = false -> o_shared o = Some l -> h !! l = Some d ->
  o_old_size o <= size d ->
  (mutex_held d = true ->
   (forall r, try_get T o h <> Ret r) /\ (forall r, try_get_all T o h <> Ret r)) /\
  (mutex_held d = false ->
   try_get T o h <> Waits /\ try_get_all T o h <> Waits) /\
  (mutex_held d = false -> size d = 0 -> in_alive d = true ->
   try_get T o h = Ret (None, o, h) /\ try_get_all T o h = Ret (None, o, h)).
Proof.
  intros Hopen Hshared Hd Hcache.
  unfold try_get, try_get_all, deref, unique_lock.
  rewrite Hopen, Hshared. simpl. rewrite Hd. simpl.
  split; [| split].
  - intros ->. split; intros r.
    + destruct (0 <? o_old_size o); simpl; [| discriminate].
      destruct (slot_cases (storage d) (read_pos o)) as [[v ->] | ->]; discriminate.
    + discriminate.
  - intros ->. split.
    + destruct (0 <? o_old_size o); simpl.
      * destruct (slot_cases (storage d) (read_pos o)) as [[v ->] | ->]; simpl;
          [| discriminate].
        destruct (0 <? size d); simpl; [discriminate |].
        destruct (in_alive d); discriminate.
      * destruct (0 <? size d); simpl.
        -- destruct (slot_cases (storage d) (read_pos o)) as [[v ->] | ->]; discriminate.
        -- destruct (in_alive d); discriminate.
    + destruct (0 <? size d); simpl.
      * destruct (drain_cases (storage d) (o_capacity o) (Z.to_nat (size d)) (read_pos o))
          as [[r ->] | ->]; discriminate.
      * destruct (in_alive d); discriminate.
  - intros -> Hsize ->. rewrite Hsize in *.
    destruct (Z.ltb_spec 0 (o_old_size o)); [lia |]. simpl. done.
Qed.

End chan.

(** C5, counterexample: a channel of capacity 2 holding 7, the producer
    inside its critical section.  [try_get] and [try_get_all] do not come
    back with a would-block answer: they wait for the mutex. *)
Lemma try_get_blocks_on_held_mutex :
  let d := mk_data 1 2 [7; 0] true true true in
  let o := mk_out (Some 0%nat) 0 0 2 false in
  let h : gmap nat (data Z) := {[ 0%nat := d ]} in
  mutex_held d = true /\
  try_get Z o h = Waits /\ try_get_all Z o h = Waits.
Proof. repeat split. Qed.

Lemma channel_fifo_witness :
  let cs := [Put 10; Put 20; Get; Put 30; Get; Get; CloseIn; Get] in
  exists i o h rs s',
    CreateBufferedChannel Z 0 2 true ∅ = Ret (i, o, h) /\
    run Z cs (mk_sys i o h) = Ret (rs, s') /\
    rs = [PutReply true; PutReply true; GetReply (Some 10); PutReply true;
          GetReply (Some 20); GetReply (Some 30); CloseReply; GetReply None] /\
    accepted Z cs rs = delivered Z rs ++ buffered Z s' /\
    delivered Z rs = [10; 20; 30].
Proof.
  intros cs.
  assert (Hcap : is_size_t 2) by (vm_compute; intuition discriminate).
  destruct (CreateBufferedChannel Z 0 2 true ∅) as [[[i o] h] | | |] eqn:Hnew;
    try (vm_compute in Hnew; discriminate).
  destruct (run Z cs (mk_sys i o h)) as [[rs s'] | | |] eqn:Hrun;
    try (vm_compute in Hnew; injection Hnew as <- <- <-; vm_compute in Hrun;
         discriminate).
  exists i, o, h, rs, s'.
  destruct (channel_fifo Z 0 2 true ∅ i o h cs rs s' Hcap Hnew Hrun) as [Hfifo _].
  assert (Hrs : rs = [PutReply true; PutReply true; GetReply (Some 10); PutReply true;
                      GetReply (Some 20); GetReply (Some 30); CloseReply; GetReply None]).
  { vm_compute in Hnew. injection Hnew as <- <- <-.
    vm_compute in Hrun. by injection Hrun as <- _. }
  split; [reflexivity |]. split; [exact Hrun |].
  split; [exact Hrs |]. split; [exact Hfifo |].
  rewrite Hrs. reflexivity.
Defined.

(** C9, counterexample: the largest [size_t] capacity with the memory not
    there: [storage(capacity)] throws and no pair is returned. *)
Lemma CreateBufferedChannel_throws_without_memory :
  is_size_t (size_t_mod - 1) /\
  CreateBufferedChannel Z 0 (size_t_mod - 1) false ∅ = Throws /\
  forall r, CreateBufferedChannel Z 0 (size_t_mod - 1) false ∅ <> Ret r.
Proof.
  split; [vm_compute; intuition discriminate |].
  split; [reflexivity | discriminate].
Qed.

Lemma CreateBufferedChannel_witness :
  exists i o h l d,
    CreateBufferedChannel Z 0 0 true ∅ = Ret (i, o, h) /\
    h !! l = Some d /\ d_capacity d = 1 /\
    in_alive d = true /\ out_alive d = true.
Proof.
  assert (Hc : is_size_t 0) by (vm_compute; intuition discriminate).
  destruct (CreateBufferedChannel_spec Z 0 0 ∅ Hc)
    as ((l & i & o & h & d & Hrun & _ & Hd & _ & _ & _ & _ & Hcap & _ & _ & _ & _
         & Hin & Hout) & _).
  exists i, o, h, l, d. repeat split; assumption.
Defined.

Lemma try_get_waits_witness :
  let d := mk_data 0 2 [7; 0] false true true in
  let o := mk_out (Some 0%nat) 1 0 2 false in
  let h : gmap nat (data Z) := {[ 0%nat := d ]} in
  try_get Z o h = Ret (None, o, h) /\ try_get_all Z o h = Ret (None, o, h).
Proof.
  intros d o h.
  destruct (try_get_waits_for_the_mutex_only Z o h 0%nat d eq_refl eq_refl eq_refl)
    as (_ & _ & Hempty).
  - simpl. lia.
  - apply Hempty; reflexivity.
Defined.

End channel_facts.

(** ** raii_fd: sequences of calls, moves *)

Module raii_fd_calls.
Import util util.raii_fd.

(** A single call never turns a descriptor that is not ok into one that
    is, and never changes [fd]. *)
Lemma call_keeps_not_ok f m :
  is_ok f = false -> is_ok (call f m) = false /\ fd (call f m) = fd f.
Proof.
  unfold is_ok. intros H.
  destruct m as [res | n res | data sz res | sz res | w res | r1 r2]; simpl.
  - done.
  - done.
  - unfold write. destruct (res <? 0); simpl; [by rewrite orb_true_r |].
    destruct (negb (to_size_t res =? sz)); simpl; [by rewrite orb_true_r | done].
  - unfold read. destruct (res <? 0); simpl; [by rewrite orb_true_r |].
    destruct (negb (to_size_t res =? sz)); simpl; [by rewrite orb_true_r | done].
  - unfold seek. destruct (res <? 0); done.
  - unfold size_then_reset. destruct (r1 <? 0); simpl; [by rewrite orb_true_r |].
    destruct (negb (r2 =? 0)); simpl; [by rewrite orb_true_r | done].
Qed.

(** X1: once [is_ok] answers false it answers false after any further
    sequence of [flush], [resize], [write], [read], [seek] and
    [size_then_reset] calls, whatever the kernel returns; the descriptor
    number never changes. *)
Theorem is_ok_false_is_final f ms :
  is_ok f = false ->
  is_ok (calls f ms) = false /\ fd (calls f ms) = fd f.
Proof.
  revert f. induction ms as [| m ms IH]; intros f H; [done |].
  unfold calls. simpl. fold (calls (call f m) ms).
  destruct (call_keeps_not_ok f m H) as [Hok Hfd].
  destruct (IH (call f m) Hok) as [Hok' Hfd']. split; congruence.
Qed.

Lemma is_ok_false_is_final_witness :
  let f := snd (write (open 0 0 3 0) [1; 2; 3; 4] 4 2) in
  is_ok f = false /\
  is_ok (calls f [m_seek 0 0; m_write [9] 1 1; m_flush 0; m_read 1 1]) = false.
Proof.
  intros f. split; [reflexivity |].
  apply (is_ok_false_is_final f [m_seek 0 0; m_write [9] 1 1; m_flush 0; m_read 1 1]).
  reflexivity.
Defined.

(** X2: the move constructor takes the descriptor and leaves the error bit
    behind: the new object is ok exactly when the descriptor number is not
    negative, even if the source had recorded an error; the moved-from
    object holds -1 and is not ok. *)
Theorem move_construct_drops_error f :
  is_ok (move_construct f).1 = negb (fd f <? 0) /\
  fd (move_construct f).1 = fd f /\
  k_pos (move_construct f).1 = k_pos f /\
  error (move_construct f).1 = false /\
  fd (move_construct f).2 = -1 /\
  error (move_construct f).2 = error f /\
  is_ok (move_construct f).2 = false.
Proof. unfold is_ok. simpl. rewrite orb_false_r. done. Qed.

End raii_fd_calls.

(** ** file_based_vector: construction, sequences of calls, reads *)

Module file_based_vector_calls.
Import util util.file_based_vector.

Section elem.
Context (elem_size : Z).

Lemma size_add_range a b : is_size_t (size_add a b).
Proof. apply to_size_t_range. Qed.

(** Whether the sum [at + count] wrapped is what [reserve_at] tests. *)
Lemma size_add_no_wrap a n :
  is_size_t a -> is_size_t n -> ~ size_add a n < a ->
  size_add a n = a + n /\ a + n < size_t_mod.
Proof.
  intros Ha Hn Hge.
  destruct (Z_lt_le_dec (a + n) size_t_mod) as [Hfit | Hwrap].
  - split; [| done]. apply size_add_small. unfold is_size_t in *. lia.
  - rewrite size_add_overflow in Hge by done. unfold is_size_t in *. lia.
Qed.

(** Everything [reserve_at] can return. *)
Lemma reserve_at_returns v a n rz r v' :
  wf v -> is_size_t a -> is_size_t n -> used v <= capacity v ->
  reserve_at elem_size v a n rz = Returns (r, v') ->
  wf v' /\ iter v' = iter v /\ used v' <= capacity v' /\
  capacity_chunk_size v' = capacity_chunk_size v /\
  match r with
  | Some s => s = a /\ a <= used v /\ a + n < size_t_mod /\
              used v' = Z.max (used v) (a + n) /\
              error v = false /\ error v' = false
  | None => used v' = used v /\ capacity v' = capacity v
  end.
Proof.
  intros Hwf Ha Hn Hord. pose proof Hwf as (Hu & Hc & Hi & Hk).
  unfold reserve_at.
  assert (Hsame : forall e, wf (with_error v e)) by (intros e; exact Hwf).
  destruct (error v) eqn:He; [by intros [= <- <-] |].
  destruct (Z.ltb_spec (size_add a n) a) as [| Hnw]; [by intros [= <- <-] |].
  destruct (size_add_no_wrap a n Ha Hn ltac:(lia)) as [Hsum Hfit].
  rewrite Hsum.
  destruct (Z.ltb_spec (used v) a); [by intros [= <- <-] |].
  destruct (Z.ltb_spec (capacity v) (a + n)) as [Hgrow | Hroom].
  - destruct (capacity_chunk_size v =? 0); [discriminate |].
    match goal with
    | |- context [size_add ?N (capacity v) <? a + n] =>
        destruct (size_add N (capacity v) <? a + n); [discriminate |];
        set (num_new_items := N)
    end.
    pose proof (size_add_range (capacity v) num_new_items) as Hnew.
    destruct (Z.ltb_spec (size_add (capacity v) num_new_items) (a + n));
      [by intros [= <- <-] |].
    unfold raii_fd.resize. destruct (rz =? 0); simpl.
    + intros [= <- <-]. simpl. unfold wf, is_size_t in *. simpl.
      repeat (split; [first [done | lia] |]). done.
    + by intros [= <- <-].
  - intros [= <- <-]. simpl. unfold wf, is_size_t in *. simpl.
    repeat (split; [first [done | lia] |]). done.
Qed.

(** [write_at], [read_at] and [peek] never move a counter. *)
Lemma write_at_counters v start arr count r1 r2 r3 r v' :
  write_at elem_size v start arr count r1 r2 r3 = (r, v') ->
  used v' = used v /\ capacity v' = capacity v /\ iter v' = iter v /\
  capacity_chunk_size v' = capacity_chunk_size v.
Proof.
  unfold write_at.
  destruct (error v); [by intros [= <- <-] |].
  destruct (used v <? start); [by intros [= <- <-] |].
  destruct (raii_fd.seek (file v) _ r1) as [[] f1]; simpl; [| by intros [= <- <-] ].
  destruct (raii_fd.write f1 arr _ r2) as [[] f2]; simpl; [| by intros [= <- <-] ].
  destruct (raii_fd.seek f2 _ r3) as [[] f3]; simpl; by intros [= <- <-].
Qed.

Lemma read_at_counters v start count alloc_ok r1 r2 buf r3 r v' :
  read_at elem_size v start count alloc_ok r1 r2 buf r3 = Returns (r, v') ->
  used v' = used v /\ capacity v' = capacity v /\ iter v' = iter v /\
  capacity_chunk_size v' = capacity_chunk_size v /\
  (is_Some r -> size_add start count <= used v).
Proof.
  unfold read_at.
  destruct (error v); [intros [= <- <-]; repeat split; by intros [] |].
  destruct (Z.ltb_spec (used v) (size_add start count));
    [intros [= <- <-]; repeat split; by intros [] |].
  destruct ((size_t_mod <=? count * elem_size) || negb alloc_ok); [discriminate |].
  destruct (raii_fd.seek (file v) _ r1) as [[] f1]; simpl;
    [| intros [= <- <-]; repeat split; by intros [] ].
  destruct (raii_fd.read f1 _ r2) as [[] f2]; simpl;
    [| intros [= <- <-]; repeat split; by intros [] ].
  destruct (raii_fd.seek f2 _ r3) as [[] f3]; simpl; intros [= <- <-];
    repeat split; try done; by intros [].
Qed.

(** X3: a vector built on a file is usable exactly when the descriptor
    number is not negative, both [lseek] calls of [size_then_reset]
    succeed, and [used] fits the file: then its capacity is the file length
    divided by the element size, [iter] is 0 and the descriptor is at 0.
    The error bit of the descriptor handed in plays no part, since the
    member is move-constructed from it. *)
Theorem construct_usable_iff file_ used_ chunk res_end res_set :
  let v := construct elem_size file_ used_ chunk res_end res_set in
  (error v = false <->
   0 <= raii_fd.fd file_ /\ 0 <= res_end /\ res_set = 0 /\
   used_ <= to_size_t res_end / elem_size) /\
  (error v = false ->
   capacity v = to_size_t res_end / elem_size /\ used v = used_ /\ iter v = 0 /\
   capacity_chunk_size v = chunk /\ raii_fd.k_pos (file v) = 0 /\
   is_ok v = true).
Proof.
  unfold construct, raii_fd.is_ok, is_ok, raii_fd.size_then_reset. simpl.
  rewrite orb_false_r, negb_involutive.
  destruct (Z.ltb_spec (raii_fd.fd file_) 0) as [Hfd | Hfd]; simpl.
  { split; [split; [done | lia] | done]. }
  destruct (Z.ltb_spec res_end 0) as [Hend | Hend]; simpl.
  { split; [split; [done | lia] | done]. }
  destruct (Z.eqb_spec res_set 0) as [-> | Hset]; simpl.
  2: { split; [split; [done | lia] | done]. }
  destruct (Z.ltb_spec (to_size_t res_end / elem_size) used_) as [Hcap | Hcap]; simpl.
  { split; [split; [done | lia] | done]. }
  split; [split; [lia | done] |]. intros _.
  unfold raii_fd.is_ok. simpl.
  destruct (Z.ltb_spec (raii_fd.fd file_) 0); [lia |]. done.
Qed.

(** X4: a vector whose error flag is set refuses every call: each method
    reports failure, makes no system call, and leaves the vector as it
    is. *)
Theorem errored_vector_refuses v ms :
  error v = true ->
  calls elem_size v ms = Returns (replicate (length ms) false, v).
Proof.
  intros He. induction ms as [| m ms IH]; [reflexivity |].
  assert (Hone : call elem_size v m = Returns (false, v)).
  { destruct m; unfold call, reserve, write, write_at, read, read_at, peek,
      move_to, flush, reserve_at; by rewrite He. }
  simpl. by rewrite Hone, IH.
Qed.

(** One call keeps the counters in order. *)
Lemma call_keeps_counters v m b v' :
  counters_ok v -> args_in_range m ->
  call elem_size v m = Returns (b, v') -> counters_ok v'.
Proof.
  intros (Hwf & Hiu & Huc) Hargs.
  pose proof Hwf as (Hu & Hc & Hi & Hk).
  destruct m as [count rz | arr count rz r1 r2 r3 | start arr count r1 r2 r3
                | count ok r1 r2 buf r3 | start count ok r1 r2 buf r3
                | count ok r1 r2 buf r3 | start r1 | res]; simpl in *.
  - unfold reserve.
    destruct (reserve_at elem_size v (used v) count rz) as [[r v1] |] eqn:Hr;
      [| done].
    destruct (reserve_at_returns v (used v) count rz r v1) as
      (Hwf1 & Hit & Hord & _ & Hres); try done.
    destruct r as [s |]; intros [= <- <-].
    + destruct Hwf1 as (? & ? & ? & ?). unfold counters_ok, wf. simpl.
      repeat (split; [first [done | lia] |]); first [done | lia].
    + destruct Hres as [Hu1 Hc1]. unfold counters_ok. rewrite Hit, Hu1.
      repeat (split; [first [done | lia] |]); first [done | lia].
  - unfold write.
    destruct (reserve_at elem_size v (iter v) count rz) as [[r v1] |] eqn:Hr;
      [| done].
    destruct (reserve_at_returns v (iter v) count rz r v1) as
      (Hwf1 & Hit & Hord & _ & Hres); try done.
    destruct r as [s |].
    + destruct Hres as (-> & _ & Hfit & Hused & _ & _). rewrite Hit, Z.eqb_refl.
      simpl.
      destruct (write_at elem_size _ (iter v) arr count r1 r2 r3) as [r v3] eqn:Hw.
      apply write_at_counters in Hw as (Hu3 & Hc3 & Hi3 & Hk3). simpl in *.
      destruct Hwf1 as (? & ? & ? & ?).
      assert (Hsum : size_add (iter v) count = iter v + count).
      { apply size_add_small. unfold is_size_t in *. lia. }
      destruct r; intros [= <- <-]; unfold counters_ok, wf, is_size_t in *; simpl;
        rewrite ?Hu3, ?Hc3, ?Hi3, ?Hk3, ?Hsum;
        repeat (split; [first [done | lia] |]); first [done | lia].
    + destruct Hres as [Hu1 Hc1]. intros [= <- <-].
      unfold counters_ok. rewrite Hit, Hu1.
      repeat (split; [first [done | lia] |]); first [done | lia].
  - destruct (write_at elem_size v start arr count r1 r2 r3) as [r v3] eqn:Hw.
    apply write_at_counters in Hw as (Hu3 & Hc3 & Hi3 & Hk3).
    destruct r; intros [= <- <-]; unfold counters_ok, wf;
      by rewrite Hu3, Hc3, Hi3, Hk3.
  - unfold read. destruct (error v); [by intros [= <- <-] |].
    destruct (read_at elem_size _ (iter v) count ok r1 r2 buf r3)
      as [[r v2] |] eqn:Hr; [| done].
    apply read_at_counters in Hr as (Hu2 & Hc2 & Hi2 & Hk2 & Hb). simpl in *.
    destruct r as [d |]; intros [= <- <-]; unfold counters_ok, wf; simpl;
      rewrite ?Hu2, ?Hc2, ?Hi2, ?Hk2.
    + specialize (Hb ltac:(eauto)).
      pose proof (size_add_range (iter v) count).
      repeat (split; [first [done | lia] |]); first [done | lia].
    + repeat (split; [first [done | lia] |]); first [done | lia].
  - destruct (read_at elem_size v start count ok r1 r2 buf r3) as [[r v2] |] eqn:Hr;
      [| done].
    apply read_at_counters in Hr as (Hu2 & Hc2 & Hi2 & Hk2 & _).
    destruct r; intros [= <- <-]; unfold counters_ok, wf;
      by rewrite Hu2, Hc2, Hi2, Hk2.
  - unfold peek. destruct (error v); [by intros [= <- <-] |].
    destruct (read_at elem_size v (iter v) count ok r1 r2 buf r3) as [[r v2] |] eqn:Hr;
      [| done].
    apply read_at_counters in Hr as (Hu2 & Hc2 & Hi2 & Hk2 & _).
    destruct r; intros [= <- <-]; unfold counters_ok, wf;
      by rewrite Hu2, Hc2, Hi2, Hk2.
  - unfold move_to. destruct (error v); [by intros [= <- <-] |].
    destruct (Z.ltb_spec (used v) start); [by intros [= <- <-] |].
    destruct (iter v =? start); [by intros [= <- <-] |]. simpl.
    destruct (raii_fd.seek (file v) _ r1) as [[] f]; simpl; intros [= <- <-];
      unfold counters_ok, wf; simpl;
      repeat (split; [first [done | lia] |]); first [done | lia].
  - unfold flush. destruct (error v); [by intros [= <- <-] |].
    destruct (raii_fd.flush (file v) res) as [ok f]. by intros [= <- <-].
Qed.

(** X5: [iter <= used <= capacity] is kept by every sequence of calls that
    returns, whatever the kernel answers: a vector that starts with its
    counters in order never reads, writes or moves past its end. *)
Theorem calls_keep_counters ms :
  forall v bs v',
    counters_ok v -> Forall args_in_range ms ->
    calls elem_size v ms = Returns (bs, v') -> counters_ok v'.
Proof.
  induction ms as [| m ms IH]; intros v bs v' Hok Hargs Hrun; simpl in Hrun.
  - by injection Hrun as <- <-.
  - apply Forall_cons in Hargs as [Hm Hms].
    destruct (call elem_size v m) as [[b v1] |] eqn:Hcall; [| done].
    destruct (calls elem_size v1 ms) as [[bs1 v2] |] eqn:Hrest; [| done].
    injection Hrun as <- <-.
    eapply IH; [| done | done]. by eapply call_keeps_counters.
Qed.

End elem.

Lemma construct_usable_witness :
  let v := construct 16 (raii_fd.with_error (raii_fd.open 0 0 3 256) true) 9 8 256 0 in
  error v = false /\ capacity v = 16 /\ used v = 9 /\ iter v = 0.
Proof.
  intros v.
  destruct (construct_usable_iff 16 (raii_fd.with_error (raii_fd.open 0 0 3 256) true)
              9 8 256 0) as [Hiff Hthen].
  assert (He : error v = false).
  { apply Hiff. vm_compute. intuition discriminate. }
  destruct (Hthen He) as (Hcap & Hused & Hiter & _).
  split; [exact He |]. split; [exact Hcap |]. split; [exact Hused | exact Hiter].
Defined.

Lemma errored_vector_refuses_witness :
  let v := mk 5 8 5 8 (raii_fd.open 0 0 3 128) true in
  calls 16 v [m_reserve 1 0; m_write [1] 1 0 0 0 0; m_move_to 0 0; m_flush 0]
  = Returns ([false; false; false; false], v).
Proof.
  intros v.
  apply (errored_vector_refuses 16 v
           [m_reserve 1 0; m_write [1] 1 0 0 0 0; m_move_to 0 0; m_flush 0]).
  reflexivity.
Defined.

Lemma calls_keep_counters_witness :
  let v := mk 0 0 0 8 (raii_fd.open 0 0 3 0) false in
  let ms := [m_write (replicate 80 1) 5 0 0 80 80; m_move_to 2 32;
             m_read 2 true 32 32 (replicate 32 1) 64; m_reserve 4 0] in
  exists bs v', calls 16 v ms = Returns (bs, v') /\ counters_ok v' /\
                (iter v', used v', capacity v') = (9, 9, 16).
Proof.
  intros v ms.
  destruct (calls 16 v ms) as [[bs v'] |] eqn:Hrun;
    [| vm_compute in Hrun; discriminate].
  exists bs, v'. split; [reflexivity |].
  split.
  - apply (calls_keep_counters 16 ms v bs v'); [| | exact Hrun].
    + vm_compute. intuition discriminate.
    + repeat constructor; vm_compute; intuition discriminate.
  - vm_compute in Hrun. by injection Hrun as _ <-.
Defined.

End file_based_vector_calls.

(** ** file_based_vector: what each transfer leaves behind *)

Module file_based_vector_io.
Import util util.file_based_vector.
Import file_based_vector_calls.

Section elem.
Context (elem_size : Z).

(** A [write_at] that returns a position. *)
Lemma write_at_success v start arr count r1 r2 r3 p v' :
  is_ssize_t r3 ->
  write_at elem_size v start arr count r1 r2 r3 = (Some p, v') ->
  p = start /\ start <= used v /\ error v = false /\
  iter v' = iter v /\ used v' = used v /\ capacity v' = capacity v /\
  error v' = false /\
  raii_fd.k_pos (file v') = size_mul elem_size (iter v).
Proof.
  intros Hr3. unfold write_at.
  destruct (error v) eqn:He; [done |].
  destruct (Z.ltb_spec (used v) start); [done |].
  destruct (raii_fd.seek (file v) _ r1) as [[] f1]; simpl; [| done].
  destruct (raii_fd.write f1 arr _ r2) as [[] f2]; simpl; [| done].
  destruct (raii_fd.seek f2 _ r3) as [[] f3] eqn:Hseek; simpl; [| done].
  intros [= <- <-]. simpl.
  repeat (split; [first [done | lia] |]).
  eapply raii_fd_facts.seek_success_pos; [| exact Hseek].
  unfold is_ssize_t in Hr3. rewrite size_t_mod_eq. lia.
Qed.

(** A [read_at] that returns a buffer. *)
Lemma read_at_success v start count alloc_ok r1 r2 buf r3 d v' :
  is_ssize_t r3 ->
  read_at elem_size v start count alloc_ok r1 r2 buf r3 = Returns (Some d, v') ->
  d = buf /\ size_add start count <= used v /\ error v = false /\
  iter v' = iter v /\ used v' = used v /\ capacity v' = capacity v /\
  error v' = false /\
  raii_fd.k_pos (file v') = size_mul elem_size (iter v).
Proof.
  intros Hr3. unfold read_at.
  destruct (error v) eqn:He; [done |].
  destruct (Z.ltb_spec (used v) (size_add start count)); [done |].
  destruct ((size_t_mod <=? count * elem_size) || negb alloc_ok); [done |].
  destruct (raii_fd.seek (file v) _ r1) as [[] f1]; simpl; [| done].
  destruct (raii_fd.read f1 _ r2) as [[] f2]; simpl; [| done].
  destruct (raii_fd.seek f2 _ r3) as [[] f3] eqn:Hseek; simpl; [| done].
  intros [= <- <-]. simpl.
  repeat (split; [first [done | lia] |]).
  eapply raii_fd_facts.seek_success_pos; [| exact Hseek].
  unfold is_ssize_t in Hr3. rewrite size_t_mod_eq. lia.
Qed.

(** X6: a [write] that returns a position returns the old [iter], moves
    [iter] past the [count] elements written, extends [used] to cover them
    and leaves the descriptor at the new [iter]. *)
Theorem write_success v arr count rz r1 r2 r3 pos v' :
  wf v -> is_size_t count -> used v <= capacity v -> is_ssize_t r3 ->
  write elem_size v arr count rz r1 r2 r3 = Returns (Some pos, v') ->
  pos = iter v /\
  iter v + count < size_t_mod /\
  iter v' = iter v + count /\
  used v' = Z.max (used v) (iter v + count) /\
  iter v' <= used v' <= capacity v' /\
  error v' = false /\
  raii_fd.k_pos (file v') = size_mul elem_size (iter v + count).
Proof.
  intros Hwf Hn Hord Hr3. pose proof Hwf as (Hu & Hc & Hi & Hk). unfold write.
  destruct (reserve_at elem_size v (iter v) count rz) as [[[s |] v1] |] eqn:Hr;
    [| done | done].
  destruct (reserve_at_returns elem_size v (iter v) count rz _ v1 Hwf Hi Hn Hord Hr)
    as (Hwf1 & Hit & Hord1 & _ & -> & Hle & Hfit & Hused & He & He1).
  rewrite Hit, Z.eqb_refl. simpl.
  assert (Hsum : size_add (iter v) count = iter v + count).
  { apply size_add_small. unfold is_size_t in *. lia. }
  rewrite Hsum.
  destruct (write_at elem_size _ (iter v) arr count r1 r2 r3) as [[p |] v3] eqn:Hw;
    [| done].
  intros [= <- <-].
  destruct (write_at_success _ (iter v) arr count r1 r2 r3 p v3 Hr3 Hw)
    as (-> & _ & _ & Hi3 & Hu3 & Hc3 & He3 & Hpos).
  simpl in *. rewrite Hi3, Hu3, Hc3, He3, Hpos, Hused.
  repeat (split; [first [done | lia] |]); first [done | lia].
Qed.

(** X7: when [write] has reserved its elements and the transfer then
    fails, it reports failure with [iter] back where it was, but the
    reservation stays: [used] covers the elements that were not written,
    and the vector is in the error state. *)
Theorem write_failure_keeps_reservation v arr count rz r1 r2 r3 s v1 v' :
  wf v -> is_size_t count -> used v <= capacity v ->
  reserve_at elem_size v (iter v) count rz = Returns (Some s, v1) ->
  write elem_size v arr count rz r1 r2 r3 = Returns (None, v') ->
  iter v' = iter v /\
  used v' = Z.max (used v) (iter v + count) /\
  capacity v' = capacity v1 /\
  error v = false /\ error v' = true.
Proof.
  intros Hwf Hn Hord Hr. pose proof Hwf as (Hu & Hc & Hi & Hk). unfold write.
  rewrite Hr.
  destruct (reserve_at_returns elem_size v (iter v) count rz _ v1 Hwf Hi Hn Hord Hr)
    as (Hwf1 & Hit & Hord1 & _ & -> & Hle & Hfit & Hused & He & He1).
  rewrite Hit, Z.eqb_refl. simpl.
  unfold write_at. simpl. rewrite He1.
  assert (Hle1 : iter v <= used v1) by lia.
  destruct (Z.ltb_spec (used v1) (iter v)); [lia |].
  destruct (raii_fd.seek (file v1) _ r1) as [[] f1]; simpl;
    [| by intros [= <-] ].
  destruct (raii_fd.write f1 arr _ r2) as [[] f2]; simpl;
    [| by intros [= <-] ].
  destruct (raii_fd.seek f2 _ r3) as [[] f3]; simpl; [done | by intros [= <-] ].
Qed.

(** X8: a position outside the vector is refused without a system call
    and without raising the error flag: [read_at] when [start + count]
    exceeds [used], [write_at] and [move_to] when [start] exceeds [used]. *)
Theorem out_of_range_is_refused v start count arr alloc_ok r1 r2 r3 buf :
  is_size_t start -> is_size_t count ->
  (used v < start + count -> start + count < size_t_mod ->
   read_at elem_size v start count alloc_ok r1 r2 buf r3 = Returns (None, v)) /\
  (used v < start ->
   write_at elem_size v start arr count r1 r2 r3 = (None, v) /\
   move_to elem_size v start r1 = (false, v)).
Proof.
  intros Hs Hc. split.
  - intros Hout Hfit. unfold read_at. destruct (error v); [done |].
    rewrite size_add_small by (unfold is_size_t in *; lia).
    destruct (Z.ltb_spec (used v) (start + count)); [done | lia].
  - intros Hout. unfold write_at, move_to. destruct (error v); [done |].
    destruct (Z.ltb_spec (used v) start); [done | lia].
Qed.

(** X9: a [read_at] or [peek] that returns a buffer returns what the kernel
    delivered, for a range that lies inside [used], keeps [iter], [used]
    and [capacity], and leaves the descriptor at [iter]. *)
Theorem read_at_restores_position v start count alloc_ok r1 r2 buf r3 d v' :
  is_ssize_t r3 ->
  (read_at elem_size v start count alloc_ok r1 r2 buf r3 = Returns (Some d, v') ->
   d = buf /\ size_add start count <= used v /\
   iter v' = iter v /\ used v' = used v /\ capacity v' = capacity v /\
   raii_fd.k_pos (file v') = size_mul elem_size (iter v)) /\
  (peek elem_size v count alloc_ok r1 r2 buf r3 = Returns (Some d, v') ->
   d = buf /\ size_add (iter v) count <= used v /\
   iter v' = iter v /\ used v' = used v /\ capacity v' = capacity v /\
   raii_fd.k_pos (file v') = size_mul elem_size (iter v)).
Proof.
  intros Hr3. split.
  - intros Hr. destruct (read_at_success _ _ _ _ _ _ _ _ _ _ Hr3 Hr)
      as (? & ? & _ & ? & ? & ? & _ & ?). done.
  - unfold peek. destruct (error v); [done |]. intros Hr.
    destruct (read_at_success _ _ _ _ _ _ _ _ _ _ Hr3 Hr)
      as (? & ? & _ & ? & ? & ? & _ & ?). done.
Qed.

(** X10: [read] moves [iter] past the elements it returns and leaves the
    descriptor there; when it reports failure [iter] is where it was. *)
Theorem read_advances_or_stays v count alloc_ok r1 r2 buf r3 r v' :
  is_ssize_t r3 ->
  read elem_size v count alloc_ok r1 r2 buf r3 = Returns (r, v') ->
  used v' = used v /\ capacity v' = capacity v /\
  match r with
  | Some d => d = buf /\ iter v' = size_add (iter v) count /\
              iter v' <= used v /\ error v' = false /\
              raii_fd.k_pos (file v') = size_mul elem_size (iter v')
  | None => iter v' = iter v
  end.
Proof.
  intros Hr3. unfold read. destruct (error v); [by intros [= <- <-] |].
  destruct (read_at elem_size _ (iter v) count alloc_ok r1 r2 buf r3)
    as [[[d |] v2] |] eqn:Hr; [| | done].
  - intros [= <- <-].
    destruct (read_at_success _ _ _ _ _ _ _ _ _ _ Hr3 Hr)
      as (-> & Hin & _ & Hi2 & Hu2 & Hc2 & He2 & Hpos).
    simpl in *. rewrite Hi2, Hu2, Hc2, He2, Hpos. done.
  - intros [= <- <-].
    apply read_at_counters in Hr as (Hu2 & Hc2 & _). simpl in *. done.
Qed.

(** X11: [move_to] does nothing when [iter] is already there; otherwise it
    sets [iter] and seeks, and if the seek fails [iter] has moved all the
    same and the error flag is set. *)
Theorem move_to_cases v start r_seek b v' :
  error v = false -> start <= used v -> is_ssize_t r_seek ->
  move_to elem_size v start r_seek = (b, v') ->
  iter v' = start /\ used v' = used v /\ capacity v' = capacity v /\
  error v' = negb b /\
  (iter v = start -> b = true /\ v' = v) /\
  (iter v <> start -> b = true ->
   raii_fd.k_pos (file v') = size_mul start elem_size).
Proof.
  intros He Hle Hr. unfold move_to. rewrite He.
  destruct (Z.ltb_spec (used v) start); [lia |].
  destruct (Z.eqb_spec (iter v) start) as [Heq | Hne].
  { intros [= <- <-]. rewrite He. done. }
  simpl.
  destruct (raii_fd.seek (file v) _ r_seek) as [[] f] eqn:Hseek; simpl;
    intros [= <- <-]; simpl; rewrite ?He.
  - do 4 (split; [done |]). split; [done |]. intros _ _.
    eapply raii_fd_facts.seek_success_pos; [| exact Hseek].
    unfold is_ssize_t in Hr. rewrite size_t_mod_eq. lia.
  - do 4 (split; [done |]). split; done.
Qed.

End elem.

Lemma write_success_witness :
  let v := mk 5 8 5 8 (raii_fd.open 0 0 3 128) false in
  exists v', write 16 v (replicate 64 2) 4 0 80 64 144 = Returns (Some 5, v') /\
             (iter v', used v', capacity v') = (9, 9, 16) /\
             raii_fd.k_pos (file v') = 144.
Proof.
  intros v.
  destruct (write 16 v (replicate 64 2) 4 0 80 64 144) as [[[p |] v'] |] eqn:Hrun;
    try (vm_compute in Hrun; discriminate).
  assert (Hp : p = 5) by (vm_compute in Hrun; congruence). subst p.
  exists v'. split; [reflexivity |].
  assert (Hwf : wf v) by (vm_compute; intuition discriminate).
  assert (Hn : is_size_t 4) by (vm_compute; intuition discriminate).
  assert (Hr : is_ssize_t 144) by (vm_compute; intuition discriminate).
  destruct (write_success 16 v (replicate 64 2) 4 0 80 64 144 5 v' Hwf Hn
              ltac:(vm_compute; discriminate) Hr Hrun)
    as (_ & _ & Hiter & Hused & _ & _ & Hpos).
  split; [| exact Hpos].
  vm_compute in Hrun. by injection Hrun as <-.
Defined.

Lemma write_failure_keeps_reservation_witness :
  let v := mk 5 8 5 8 (raii_fd.open 0 0 3 128) false in
  exists v', write 16 v (replicate 64 2) 4 0 80 (-1) 0 = Returns (None, v') /\
             iter v' = 5 /\ used v' = 9 /\ error v' = true.
Proof.
  intros v.
  destruct (write 16 v (replicate 64 2) 4 0 80 (-1) 0) as [[[p |] v'] |] eqn:Hrun;
    try (vm_compute in Hrun; discriminate).
  exists v'. split; [reflexivity |].
  assert (Hwf : wf v) by (vm_compute; intuition discriminate).
  assert (Hn : is_size_t 4) by (vm_compute; intuition discriminate).
  destruct (reserve_at 16 v (iter v) 4 0) as [[[s |] v1] |] eqn:Hres;
    try (vm_compute in Hres; discriminate).
  destruct (write_failure_keeps_reservation 16 v (replicate 64 2) 4 0 80 (-1) 0
              s v1 v' Hwf Hn ltac:(vm_compute; discriminate) Hres Hrun)
    as (Hiter & Hused & _ & _ & Herr).
  repeat split; assumption.
Defined.

Lemma out_of_range_is_refused_witness :
  let v := mk 5 8 5 8 (raii_fd.open 0 0 3 128) false in
  read_at 16 v 4 2 true 0 0 [] 0 = Returns (None, v) /\
  write_at 16 v 6 [] 1 0 0 0 = (None, v) /\
  move_to 16 v 6 0 = (false, v).
Proof.
  intros v.
  assert (H4 : is_size_t 4) by (vm_compute; intuition discriminate).
  assert (H6 : is_size_t 6) by (vm_compute; intuition discriminate).
  assert (H2 : is_size_t 2) by (vm_compute; intuition discriminate).
  assert (H1 : is_size_t 1) by (vm_compute; intuition discriminate).
  destruct (out_of_range_is_refused 16 v 4 2 [] true 0 0 0 [] H4 H2) as [Hread _].
  destruct (out_of_range_is_refused 16 v 6 1 [] true 0 0 0 [] H6 H1) as [_ Hpos].
  split; [apply Hread; reflexivity |]. apply Hpos. reflexivity.
Defined.

Lemma read_at_restores_position_witness :
  let v := mk 9 16 9 8 (raii_fd.open 0 0 3 256) false in
  exists v', read_at 16 v 2 3 true 32 48 (replicate 48 7) 144
             = Returns (Some (replicate 48 7), v') /\
             iter v' = 9 /\ raii_fd.k_pos (file v') = 144.
Proof.
  intros v.
  destruct (read_at 16 v 2 3 true 32 48 (replicate 48 7) 144)
    as [[[d |] v'] |] eqn:Hrun; try (vm_compute in Hrun; discriminate).
  assert (Hr : is_ssize_t 144) by (vm_compute; intuition discriminate).
  destruct (read_at_restores_position 16 v 2 3 true 32 48 (replicate 48 7) 144 d v' Hr)
    as [Hread _].
  destruct (Hread Hrun) as (-> & _ & Hiter & _ & _ & Hpos).
  exists v'. split; [reflexivity |]. split; [exact Hiter | exact Hpos].
Defined.

Lemma read_advances_or_stays_witness :
  let v := mk 9 16 2 8 (raii_fd.open 0 0 3 256) false in
  exists v', read 16 v 3 true 32 48 (replicate 48 7) 80
             = Returns (Some (replicate 48 7), v') /\ iter v' = 5.
Proof.
  intros v.
  destruct (read 16 v 3 true 32 48 (replicate 48 7) 80)
    as [[[d |] v'] |] eqn:Hrun; try (vm_compute in Hrun; discriminate).
  assert (Hr : is_ssize_t 80) by (vm_compute; intuition discriminate).
  destruct (read_advances_or_stays 16 v 3 true 32 48 (replicate 48 7) 80 _ v' Hr Hrun)
    as (_ & _ & -> & Hiter & _).
  exists v'. split; [reflexivity | exact Hiter].
Defined.

Lemma move_to_cases_witness :
  let v := mk 9 16 9 8 (raii_fd.open 0 0 3 256) false in
  exists v', move_to 16 v 2 (-1) = (false, v') /\ iter v' = 2 /\ error v' = true.
Proof.
  intros v.
  destruct (move_to 16 v 2 (-1)) as [b v'] eqn:Hrun.
  assert (Hb : b = false) by (vm_compute in Hrun; congruence). subst b.
  assert (Hr : is_ssize_t (-1)) by (vm_compute; intuition discriminate).
  destruct (move_to_cases 16 v 2 (-1) false v' eq_refl
              ltac:(vm_compute; discriminate) Hr Hrun) as (Hiter & _ & _ & Herr & _).
  exists v'. repeat split; assumption.
Defined.

End file_based_vector_io.

(** ** dedup::volume: the loop over the unfinished rows, acceptance *)

Module volume_loading.
Import dedup.

Section volume.
Context (off_mod : Z).
Context (sizeof_bareos_block_header sizeof_bareos_record_header : Z).
Context (sizeof_block_header sizeof_record_header : Z).
Context (volume_config : Type).
Context (make_volume_config : config.loaded_config -> volume_config).
Context (from_bytes : list Z -> option config.loaded_config).

Local Abbreviation load_config :=
  (load_config off_mod sizeof_bareos_block_header sizeof_bareos_record_header
               sizeof_block_header sizeof_record_header
               volume_config make_volume_config from_bytes).
Local Abbreviation emplace_unfinished := (emplace_unfinished off_mod).
Local Abbreviation unfinished_row := (unfinished_row off_mod).
Local Abbreviation row_loc := (row_loc off_mod).

(** The entry a row stands for. *)
Local Abbreviation row_entry :=
  (fun rec : config.loaded_unfinished_record => (row_key rec, row_loc rec)).

(** When the loop over the unfinished rows succeeds, and what it leaves. *)
Lemma emplace_unfinished_cases rows :
  forall m : gmap record write_loc,
    ((emplace_unfinished rows m).1 = true <->
     NoDup (row_key <$> rows) /\ forall rec, rec ∈ rows -> m !! row_key rec = None) /\
    ((emplace_unfinished rows m).1 = true ->
     (emplace_unfinished rows m).2 = list_to_map (row_entry <$> rows) ∪ m).
Proof.
  induction rows as [| rec rest IH]; intros m.
  - simpl. split; [split; [intros _ | done] | intros _].
    + split; [constructor | intros rec Hin; by apply elem_of_nil in Hin].
    + by rewrite (left_id_L ∅ (∪)).
  - rewrite fmap_cons, volume_facts.emplace_unfinished_cons.
    destruct (m !! row_key rec) as [old |] eqn:Hk.
    + simpl. split; [split; [done |] | done].
      intros [_ Hfresh]. specialize (Hfresh rec (list_elem_of_here _ _)). congruence.
    + destruct (IH (<[row_key rec := row_loc rec]> m)) as [Hiff Hres].
      split.
      * rewrite Hiff, NoDup_cons. split.
        -- intros [Hnd Hfresh]. split; [split; [| done] |].
           ++ intros Hin. apply list_elem_of_fmap in Hin as (rec' & Heq & Hin).
              specialize (Hfresh rec' Hin). rewrite <- Heq in Hfresh.
              by rewrite lookup_insert_eq in Hfresh.
           ++ intros rec' Hin. apply elem_of_cons in Hin as [-> | Hin]; [done |].
              specialize (Hfresh rec' Hin).
              apply lookup_insert_None in Hfresh as [? _]. done.
        -- intros [[Hnotin Hnd] Hfresh]. split; [done |].
           intros rec' Hin. apply lookup_insert_None. split.
           ++ apply Hfresh. by apply list_elem_of_further.
           ++ intros Heq. apply Hnotin. apply list_elem_of_fmap. by exists rec'.
      * intros Hok. rewrite (Hres Hok), fmap_cons, list_to_map_cons.
        rewrite <- insert_union_l. symmetry. apply insert_union_r.
        apply not_elem_of_list_to_map_1.
        apply Hiff in Hok as [_ Hfresh].
        intros Hin. apply list_elem_of_fmap in Hin as ([k loc] & Heq & Hin).
        apply list_elem_of_fmap in Hin as (rec' & [= -> ->] & Hin).
        simpl in Heq. specialize (Hfresh rec' Hin). rewrite <- Heq in Hfresh.
        by rewrite lookup_insert_eq in Hfresh.
Qed.

(** X12: the loop over the unfinished rows succeeds exactly when the keys
    of the rows are pairwise distinct and none of them is in the table;
    the table is then the old one with every row added under its key, with
    location [(DataIdx, file_offset, file_offset + size)]. *)
Theorem emplace_unfinished_succeeds_iff rows (m : gmap record write_loc) :
  ((emplace_unfinished rows m).1 = true <->
   NoDup (row_key <$> rows) /\ forall rec, rec ∈ rows -> m !! row_key rec = None) /\
  ((emplace_unfinished rows m).1 = true ->
   (emplace_unfinished rows m).2 = list_to_map (row_entry <$> rows) ∪ m).
Proof. apply emplace_unfinished_cases. Qed.

(** X13: [load_config] never removes or changes an entry of the unfinished
    table, whether it succeeds or fails, and never touches the error flag;
    when it fails the configuration stays. *)
Theorem load_config_keeps_entries v config_end config_start r_read data b v' :
  load_config v config_end config_start r_read data = (b, v') ->
  unfinished_records v ⊆ unfinished_records v' /\
  (forall k loc, unfinished_records v !! k = Some loc ->
                 unfinished_records v' !! k = Some loc) /\
  error v' = error v /\
  (b = false -> vol_config v' = vol_config v).
Proof.
  intros Hrun.
  assert (Hsub : unfinished_records v ⊆ unfinished_records v' /\
                 error v' = error v /\
                 (b = false -> vol_config v' = vol_config v)).
  { revert Hrun. unfold dedup.load_config.
    repeat match goal with
           | |- context [if ?c then (false, v) else _] => destruct c
           | |- (false, v) = (b, v') -> _ => by intros [= <- <-]
           end.
    destruct (from_bytes _) as [cfg |]; [| by intros [= <- <-] ].
    repeat match goal with
           | |- context [if ?c then (false, v) else _] => destruct c
           | |- (false, v) = (b, v') -> _ => by intros [= <- <-]
           end.
    destruct (emplace_unfinished _ _) as [[] m] eqn:Hloop; intros [= <- <-]; simpl;
      (split; [by eapply volume_facts.emplace_unfinished_grows | done]). }
  destruct Hsub as (Hsub & He & Hcfg).
  split; [done |]. split; [| done].
  intros k loc Hk. by eapply lookup_weaken.
Qed.

(** X14: [load_config] accepts a sidecar exactly when the second [lseek]
    returned 0, the first did not fail, [read] returned the whole file,
    the bytes parse, there is one block file and one record file, the four
    header sizes are the ones of the running binary, and the loop over the
    unfinished rows succeeds. *)
Theorem load_config_accepts_iff v config_end config_start r_read data :
  (load_config v config_end config_start r_read data).1 = true <->
  config_start = 0 /\ 0 <= config_end /\ r_read = config_end /\
  exists cfg,
    from_bytes (resize (Z.to_nat config_end) 0 data) = Some cfg /\
    length (config.blockfiles cfg) = 1%nat /\
    length (config.recordfiles cfg) = 1%nat /\
    config.info cfg
    = config.mk_info sizeof_bareos_block_header sizeof_bareos_record_header
                     sizeof_block_header sizeof_record_header /\
    (emplace_unfinished (config.unfinished cfg) (unfinished_records v)).1 = true.
Proof.
  unfold dedup.load_config.
  destruct (Z.eqb_spec config_start 0) as [-> | Hstart]; simpl.
  2: { split; [done | intros [? _]; done]. }
  rewrite Z.sub_0_r.
  destruct (Z.ltb_spec config_end 0) as [Hneg | Hpos]; simpl.
  { split; [done | intros (_ & ? & _); lia]. }
  rewrite length_resize, Z2Nat.id by lia.
  destruct (Z.eqb_spec r_read config_end) as [-> | Hread]; simpl.
  2: { split; [done | intros (_ & _ & ? & _); done]. }
  destruct (from_bytes _) as [cfg |] eqn:Hparse.
  2: { split; [done | intros (_ & _ & _ & cfg & ? & _); done]. }
  destruct cfg as [[bs rs dbs drs] blocks records datas rows]. simpl.
  destruct (Z.eqb_spec (Z.of_nat (length blocks)) 1) as [Hb | Hb]; simpl.
  2: { split; [done | intros (_ & _ & _ & cfg & [= <-] & ? & _); simpl in *; lia]. }
  destruct (Z.eqb_spec (Z.of_nat (length records)) 1) as [Hr | Hr]; simpl.
  2: { split; [done | intros (_ & _ & _ & cfg & [= <-] & _ & ? & _); simpl in *; lia]. }
  destruct (Z.eqb_spec bs sizeof_bareos_block_header) as [E1 | H1]; simpl.
  2: { split; [done |]. intros (_ & _ & _ & cfg & [= <-] & _ & _ & Hinfo & _).
       simpl in Hinfo. congruence. }
  destruct (Z.eqb_spec dbs sizeof_block_header) as [E2 | H2]; simpl.
  2: { split; [done |]. intros (_ & _ & _ & cfg & [= <-] & _ & _ & Hinfo & _).
       simpl in Hinfo. congruence. }
  destruct (Z.eqb_spec rs sizeof_bareos_record_header) as [E3 | H3]; simpl.
  2: { split; [done |]. intros (_ & _ & _ & cfg & [= <-] & _ & _ & Hinfo & _).
       simpl in Hinfo. congruence. }
  destruct (Z.eqb_spec drs sizeof_record_header) as [E4 | H4]; simpl.
  2: { split; [done |]. intros (_ & _ & _ & cfg & [= <-] & _ & _ & Hinfo & _).
       simpl in Hinfo. congruence. }
  destruct (emplace_unfinished rows (unfinished_records v)) as [[] m] eqn:Hloop; simpl.
  - split; [intros _ | done]. repeat (split; [done |]).
    eexists. split; [reflexivity |]. simpl. rewrite Hloop.
    split; [lia |]. split; [lia |]. split; [congruence | done].
  - split; [done |]. intros (_ & _ & _ & cfg & [= <-] & _ & _ & _ & Hok).
    simpl in Hok. by rewrite Hloop in Hok.
Qed.

(** X15: the rows [write_current_config] writes for a table, in whatever
    order the table is walked, load into another table exactly when the two
    share no key: a table never yields two rows with one key. *)
Theorem written_rows_load_iff_disjoint (m m0 : gmap record write_loc)
        (l : list (record * write_loc)) :
  l ≡ₚ map_to_list m ->
  ((emplace_unfinished (unfinished_row <$> l) m0).1 = true <->
   forall k, is_Some (m !! k) -> m0 !! k = None).
Proof.
  intros Hl.
  destruct (emplace_unfinished_cases (unfinished_row <$> l) m0) as [Hiff _].
  rewrite Hiff.
  assert (Hkeys : row_key <$> (unfinished_row <$> l) = l.*1).
  { rewrite <- list_fmap_compose. apply list_fmap_ext. by intros _ [[] ?] _. }
  rewrite Hkeys. split.
  - intros [_ Hfresh] k [loc Hk].
    apply (Hfresh (unfinished_row (k, loc))).
    apply list_elem_of_fmap. exists (k, loc). split; [done |].
    rewrite Hl. by apply elem_of_map_to_list.
  - intros Hdisj. split; [rewrite Hl; apply NoDup_fst_map_to_list |].
    intros rec Hin. apply list_elem_of_fmap in Hin as ([k loc] & -> & Hin).
    rewrite Hl in Hin. apply elem_of_map_to_list in Hin.
    destruct k. simpl. apply Hdisj. unfold row_key. simpl. eauto.
Qed.

End volume.

Lemma emplace_unfinished_succeeds_witness :
  let r1 := config.mk_unfinished 1 1700000000 42 1 0 1500000 64000 in
  let r2 := config.mk_unfinished 1 1700000000 43 1 0 1564000 1000 in
  emplace_unfinished (2 ^ 64) [r1; r2] ∅
  = (true, list_to_map [(mk_key 1 1700000000 42 1, mk_loc 0 1500000 1564000);
                        (mk_key 1 1700000000 43 1, mk_loc 0 1564000 1565000)] ∪ ∅).
Proof.
  intros r1 r2.
  destruct (emplace_unfinished_succeeds_iff (2 ^ 64) [r1; r2] ∅) as [Hiff Hres].
  assert (Hok : (emplace_unfinished (2 ^ 64) [r1; r2] ∅).1 = true).
  { apply Hiff. split.
    - repeat constructor; rewrite ?elem_of_cons, ?elem_of_nil; intuition discriminate.
    - intros rec _. apply lookup_empty. }
  specialize (Hres Hok).
  destruct (emplace_unfinished (2 ^ 64) [r1; r2] ∅) as [b m]. simpl in *.
  by subst.
Defined.

Lemma load_config_keeps_entries_witness :
  let row := config.mk_unfinished 1 1700000000 42 1 0 1500000 64000 in
  let cfg := config.mk_config (config.mk_info 24 12 32 48)
               [config.mk_block 0 1024 [98]] [config.mk_record 0 256 [114]]
               [config.mk_data 0 65536 [100] 2000000] [row; row] in
  let from_bytes := fun bytes : list Z =>
                      if decide (bytes = [1; 2; 3]) then Some cfg else None in
  let k0 := mk_key 7 7 7 7 in
  let v := mk_volume cfg {[ k0 := mk_loc 0 10 20 ]} false 5 in
  exists v',
    load_config (2 ^ 64) 24 12 32 48 config.loaded_config id from_bytes
                v 3 0 3 [1; 2; 3] = (false, v') /\
    unfinished_records v' !! k0 = Some (mk_loc 0 10 20).
Proof.
  intros row cfg from_bytes k0 v.
  destruct (load_config (2 ^ 64) 24 12 32 48 config.loaded_config id from_bytes
                        v 3 0 3 [1; 2; 3]) as [b v'] eqn:Hrun.
  assert (Hb : b = false) by (vm_compute in Hrun; congruence). subst b.
  exists v'. split; [reflexivity |].
  destruct (load_config_keeps_entries (2 ^ 64) 24 12 32 48 config.loaded_config id
              from_bytes v 3 0 3 [1; 2; 3] false v' Hrun) as (_ & Hkeep & _).
  apply Hkeep. apply lookup_singleton_eq.
Defined.

Lemma load_config_accepts_witness :
  let row := config.mk_unfinished 1 1700000000 42 1 0 1500000 64000 in
  let cfg := config.mk_config (config.mk_info 24 12 32 48)
               [config.mk_block 0 1024 [98]] [config.mk_record 0 256 [114]]
               [config.mk_data 0 65536 [100] 2000000] [row] in
  let from_bytes := fun bytes : list Z =>
                      if decide (bytes = [1; 2; 3]) then Some cfg else None in
  let v := mk_volume cfg ∅ false 5 in
  (load_config (2 ^ 64) 24 12 32 48 config.loaded_config id from_bytes
               v 3 0 3 [1; 2; 3]).1 = true.
Proof.
  intros row cfg from_bytes v.
  apply (load_config_accepts_iff (2 ^ 64) 24 12 32 48 config.loaded_config id
           from_bytes v 3 0 3 [1; 2; 3]).
  split; [reflexivity |]. split; [lia |]. split; [reflexivity |].
  exists cfg. repeat split.
Defined.

Lemma written_rows_load_witness :
  let e1 := (mk_key 1 1700000000 42 1, mk_loc 0 1500000 1564000) in
  let e2 := (mk_key 1 1700000000 43 1, mk_loc 0 1564000 1565000) in
  let m : gmap record write_loc := {[ e1.1 := e1.2; e2.1 := e2.2 ]} in
  let m0 : gmap record write_loc := {[ mk_key 7 7 7 7 := mk_loc 0 10 20 ]} in
  (emplace_unfinished (2 ^ 64) (unfinished_row (2 ^ 64) <$> [e1; e2]) m0).1 = true /\
  (emplace_unfinished (2 ^ 64) (unfinished_row (2 ^ 64) <$> [e2; e1]) m0).1 = true.
Proof.
  intros e1 e2 m m0.
  assert (Hm : [e1; e2] ≡ₚ map_to_list m).
  { unfold m. rewrite map_to_list_insert by (by apply lookup_singleton_ne).
    by rewrite map_to_list_singleton. }
  assert (Hdisj : forall k, is_Some (m !! k) -> m0 !! k = None).
  { intros k [loc Hk]. apply lookup_singleton_None. intros <-.
    apply lookup_insert_Some in Hk as [[? _] | [_ Hk]]; [discriminate |].
    apply lookup_singleton_Some in Hk as [? _]. discriminate. }
  split.
  - by apply (written_rows_load_iff_disjoint (2 ^ 64) m m0 [e1; e2] Hm).
  - apply (written_rows_load_iff_disjoint (2 ^ 64) m m0 [e2; e1]); [| exact Hdisj].
    rewrite <- Hm. apply Permutation_swap.
Defined.

End volume_loading.

(** ** channel: the other methods *)

Module channel_methods.
Import channel channel_facts.

(** X16: for a position below [max], [wrapping_inc] is the successor
    modulo [max]: it stays below [max] and returns to 0 after [max - 1]. *)
Theorem wrapping_inc_is_successor_mod num max :
  0 <= num < max -> max < size_t_mod ->
  wrapping_inc num max = (num + 1) mod max /\ 0 <= wrapping_inc num max < max.
Proof.
  intros Hn Hm. split; [| by apply wrapping_inc_bound].
  rewrite wrapping_inc_in_range by done.
  destruct (Z.eqb_spec (num + 1) max) as [<- | Hne].
  - by rewrite Z.mod_same by lia.
  - by rewrite Z.mod_small by lia.
Qed.

Lemma wrapping_inc_is_successor_mod_witness :
  wrapping_inc 3 4 = 0 /\ wrapping_inc 2 4 = 3.
Proof.
  assert (H4 : 4 < size_t_mod) by reflexivity.
  destruct (wrapping_inc_is_successor_mod 3 4 ltac:(lia) H4) as [H3 _].
  destruct (wrapping_inc_is_successor_mod 2 4 ltac:(lia) H4) as [H2 _].
  split; [exact H3 | exact H2].
Defined.

Section chan.
Context (T : Type).
Local Abbreviation heap := (gmap nat (data T)).

(** The [try_] variants follow the blocking ones wherever those return. *)
Lemma try_follows_blocking (o : out) (h : heap) :
  (forall r, get T o h = Ret r -> try_get T o h = Ret r) /\
  (forall r, get_all T o h = Ret r -> try_get_all T o h = Ret r).
Proof.
  split; intros r.
  - unfold get, try_get. destruct (o_closed o); [done |].
    destruct (if 0 <? o_old_size o
              then p ← deref T (o_shared o) h;
                   v ← slot T (storage p.2) (read_pos o); Ret (Some v)
              else Ret None) as [res | | |]; simpl; [| done | done | done].
    destruct (deref T (o_shared o) h) as [[l d] | | |]; simpl; [| done | done | done].
    unfold unique_lock, cv_wait. destruct (mutex_held d); simpl; [done |].
    destruct (0 <? size d); simpl; [done |].
    destruct (in_alive d); simpl; done.
  - unfold get_all, try_get_all. destruct (o_closed o); [done |].
    destruct (deref T (o_shared o) h) as [[l d] | | |]; simpl; [| done | done | done].
    unfold unique_lock, cv_wait. destruct (mutex_held d); simpl; [done |].
    destruct (0 <? size d); simpl; [done |].
    destruct (in_alive d); simpl; done.
Qed.

(** X17: wherever [get] returns, [try_get] returns the same value and
    leaves the same state, and likewise [try_get_all] for [get_all]: the
    [try_] variants differ from the blocking ones only where those would
    wait. *)
Theorem try_variants_agree (o : out) (h : heap) :
  (forall r, get T o h = Ret r -> try_get T o h = Ret r) /\
  (forall r, get_all T o h = Ret r -> try_get_all T o h = Ret r).
Proof. apply try_follows_blocking. Qed.

(** X18: [close] is idempotent on both endpoints: a second [close] returns
    without touching the endpoint or the shared object. *)
Theorem close_is_idempotent (i : inp) (o : out) (h : heap) :
  (forall i1 h1, in_close T i h = Ret (i1, h1) ->
                 i_closed i1 = true /\ in_close T i1 h1 = Ret (i1, h1)) /\
  (forall o1 h1, out_close T o h = Ret (o1, h1) ->
                 o_closed o1 = true /\ out_close T o1 h1 = Ret (o1, h1)).
Proof.
  split.
  - intros i1 h1. unfold in_close at 1.
    destruct (i_closed i) eqn:Hc.
    + intros [= <- <-]. unfold in_close. by rewrite Hc.
    + destruct (deref T (i_shared i) h) as [[l d] | | |]; simpl; [| done | done | done].
      destruct (unique_lock T d); simpl; [| done | done | done]. by intros [= <- <-].
  - intros o1 h1. unfold out_close at 1.
    destruct (o_closed o) eqn:Hc.
    + intros [= <- <-]. unfold out_close. by rewrite Hc.
    + destruct (deref T (o_shared o) h) as [[l d] | | |]; simpl; [| done | done | done].
      destruct (unique_lock T d); simpl; [| done | done | done]. by intros [= <- <-].
Qed.

(** The loop of [get_all] collects the occupied slots in order and ends
    on the slot after them. *)
Lemma drain_ring C (s : list T) n :
  forall rp,
    0 <= rp < C -> C < size_t_mod -> Z.of_nat (length s) = C -> Z.of_nat n <= C ->
    drain T s rp C n = Ret (ring T s rp C n, wrap_pos C (rp + Z.of_nat n)).
Proof.
  induction n as [| n IH]; intros rp Hrp HC Hlen Hn.
  - simpl. rewrite Z.add_0_r. unfold wrap_pos.
    destruct (Z.ltb_spec rp C); [done | lia].
  - simpl drain. simpl ring.
    destruct (slot_in_range T s rp) as (x & Hx & Hslot); [lia |].
    rewrite Hslot, Hx. simpl.
    rewrite IH; [| by apply wrapping_inc_bound | done | done | lia]. simpl.
    rewrite wrap_pos_inc by lia.
    by replace (Z.of_nat n + 1) with (Z.of_nat (S n)) by lia.
Qed.

Lemma ring_length C (s : list T) n :
  forall rp,
    0 <= rp < C -> C < size_t_mod -> Z.of_nat (length s) = C ->
    length (ring T s rp C n) = n.
Proof.
  induction n as [| n IH]; intros rp Hrp HC Hlen; [done |]. simpl.
  destruct (slot_in_range T s rp) as (x & -> & _); [lia |]. simpl.
  rewrite IH; [done | by apply wrapping_inc_bound | done | done].
Qed.

(** [get_all] on a channel that satisfies the invariant. *)
Lemma get_all_inv C i o (h : heap) l d r o' h' :
  channel_inv T C (mk_sys i o h) l d ->
  get_all T o h = Ret (r, o', h') ->
  (exists d1, channel_inv T C (mk_sys i o' h') l d1) /\
  buffered T (mk_sys i o h)
  = match r with Some vs => vs | None => [] end ++ buffered T (mk_sys i o' h') /\
  (forall vs, r = Some vs ->
     vs = buffered T (mk_sys i o h) /\ vs <> [] /\
     buffered T (mk_sys i o' h') = []) /\
  (r = None -> o_closed o' = true).
Proof.
  intros (Hi & Ho & Hd & HC & Hdc & Hic & Hoc & Hlen & Hmx & Hsz & Hrp & Hwp
          & Hicache & Hocache & Hlive).
  simpl in *. unfold get_all, buffered. simpl. rewrite Ho, Hd.
  destruct (o_closed o) eqn:Hclosed.
  { intros [= <- <- <-]. rewrite Ho, Hd. simpl.
    split; [exists d; unfold channel_inv; simpl; by rewrite Hclosed |].
    split; [done |]. split; [done | done]. }
  unfold deref, unique_lock, cv_wait. rewrite Hd. simpl. rewrite Hmx, Hoc. simpl.
  destruct (Z.ltb_spec 0 (size d)) as [Hsome | Hnone]; simpl.
  - rewrite (drain_ring C (storage d) (Z.to_nat (size d)) (read_pos o))
      by (try done; lia).
    simpl. rewrite Z2Nat.id by lia.
    intros [= <- <- <-]. simpl. rewrite lookup_insert_eq. simpl.
    rewrite app_nil_r.
    split; [| split; [done | split; [| done] ] ].
    + eexists. unfold channel_inv. simpl.
      split; [done |]. split; [done |]. split; [apply lookup_insert_eq |]. simpl.
      assert (Hw : 0 <= wrap_pos C (read_pos o + size d) < C)
        by (apply wrap_pos_bound; lia).
      assert (Hw0 : wrap_pos C (wrap_pos C (read_pos o + size d) + 0)
                    = wrap_pos C (read_pos o + size d)).
      { rewrite Z.add_0_r. unfold wrap_pos at 1.
        destruct (Z.ltb_spec (wrap_pos C (read_pos o + size d)) C); [done | lia]. }
      rewrite Hw0.
      repeat (split; [first [done | lia] |]).
      split; [intros Hc; specialize (Hicache Hc); lia |].
      split; [lia | done].
    + intros vs [= <-]. split; [done |]. split; [| done].
      intros Hnil. apply (f_equal length) in Hnil.
      rewrite ring_length in Hnil by (try done; lia). simpl in Hnil. lia.
  - assert (Hzero : size d = 0) by lia.
    destruct (in_alive d) eqn:Hin; simpl; [discriminate |].
    intros [= <- <- <-]. simpl. rewrite lookup_insert_eq. simpl.
    rewrite Hzero. simpl.
    split; [| split; [done | split; [done | done] ] ].
    eexists. unfold channel_inv. simpl.
    split; [done |]. split; [done |]. split; [apply lookup_insert_eq |]. simpl.
    rewrite Hin, Hzero in *.
    repeat (split; [first [done | lia] |]). done.
Qed.

(** X19: on a channel that satisfies the invariant, [get_all] with a
    non-empty buffer returns every buffered element, oldest first, and
    leaves the buffer empty; it never returns an empty sequence. *)
Theorem get_all_drains C i o (h : heap) l d r o' h' :
  channel_inv T C (mk_sys i o h) l d ->
  get_all T o h = Ret (r, o', h') ->
  (exists d1, channel_inv T C (mk_sys i o' h') l d1) /\
  buffered T (mk_sys i o h)
  = match r with Some vs => vs | None => [] end ++ buffered T (mk_sys i o' h') /\
  (forall vs, r = Some vs ->
     vs = buffered T (mk_sys i o h) /\ vs <> [] /\
     buffered T (mk_sys i o' h') = []) /\
  (r = None -> o_closed o' = true).
Proof. apply get_all_inv. Qed.

(** The states in which a call waits. *)
Lemma waits_cases C refresh i o (h : heap) l d v :
  channel_inv T C (mk_sys i o h) l d ->
  (put_body T refresh i v h = Waits <->
   i_closed i = false /\ size d = C /\ out_alive d = true) /\
  (get T o h = Waits <->
   o_closed o = false /\ size d = 0 /\ in_alive d = true) /\
  (get_all T o h = Waits <->
   o_closed o = false /\ size d = 0 /\ in_alive d = true) /\
  (wait_till_empty T i h = Waits <-> size d <> 0 /\ out_alive d = true).
Proof.
  intros Hinv.
  pose proof Hinv as (Hi & Ho & Hd & HC & Hdc & Hic & Hoc & Hlen & Hmx & Hsz & Hrp
                      & Hwp & Hicache & Hocache & Hlive).
  simpl in *. split; [| split; [| split] ].
  - split.
    + intros Hw.
      destruct (i_closed i) eqn:Hclosed.
      { unfold put_body in Hw. by rewrite Hclosed in Hw. }
      destruct (Z_lt_le_dec (size d) C) as [Hroom | Hfull].
      { destruct (put_returns T C refresh i o h l d v Hinv (or_introl Hroom)) as [r Hr].
        congruence. }
      destruct (out_alive d) eqn:Hout.
      * repeat split; lia.
      * destruct (put_returns T C refresh i o h l d v Hinv (or_intror Hout)) as [r Hr].
        congruence.
    + intros (Hclosed & Hfull & Hout). unfold put_body.
      rewrite Hclosed, Hic, Hi.
      specialize (Hicache Hclosed).
      destruct (Z.ltb_spec (i_old_size i) C); [lia |]. simpl.
      unfold deref, unique_lock, cv_wait. rewrite Hd. simpl.
      rewrite Hmx, Hout. simpl.
      destruct (Z.ltb_spec (size d) C); [lia | done].
  - split.
    + intros Hw.
      destruct (o_closed o) eqn:Hclosed.
      { unfold get in Hw. by rewrite Hclosed in Hw. }
      destruct (Z_lt_le_dec 0 (size d)) as [Hsome | Hnone].
      { destruct (get_returns T C i o h l d Hinv (or_introl Hsome)) as [r Hr].
        congruence. }
      destruct (in_alive d) eqn:Hin.
      * repeat split; lia.
      * destruct (get_returns T C i o h l d Hinv (or_intror Hin)) as [r Hr].
        congruence.
    + intros (Hclosed & Hzero & Hin). unfold get. rewrite Hclosed, Ho.
      specialize (Hocache Hclosed).
      destruct (Z.ltb_spec 0 (o_old_size o)); [lia |]. simpl.
      unfold deref, unique_lock, cv_wait. rewrite Hd. simpl.
      rewrite Hmx, Hzero, Hin. done.
  - unfold get_all. rewrite Ho. unfold deref, unique_lock, cv_wait. rewrite Hd.
    destruct (o_closed o); [split; [done | by intros [? _] ] |]. simpl.
    rewrite Hmx, Hoc. simpl.
    destruct (Z.ltb_spec 0 (size d)) as [Hsome | Hnone]; simpl.
    + rewrite (drain_ring C (storage d) (Z.to_nat (size d)) (read_pos o))
        by (try done; lia).
      simpl. split; [done | intros (_ & ? & _); lia].
    + destruct (in_alive d); simpl; split; try done.
      * intros _. repeat split; lia.
      * by intros (_ & _ & ?).
  - unfold wait_till_empty. rewrite Hi. unfold deref, unique_lock, cv_wait.
    rewrite Hd. simpl. rewrite Hmx. simpl.
    destruct (Z.eqb_spec (size d) 0) as [Hzero | Hne]; simpl.
    + destruct (out_alive d); simpl; (split; [done | by intros [? _] ]).
    + destruct (out_alive d); simpl; split; try done. by intros [_ ?].
Qed.

(** X20: on a channel that satisfies the invariant, a call waits exactly
    in these states: [put] when the producer is open, the buffer full and
    the consumer alive; [get] and [get_all] when the consumer is open, the
    buffer empty and the producer alive; [wait_till_empty] when the buffer
    is not empty and the consumer alive. *)
Theorem waits_iff C refresh i o (h : heap) l d v :
  channel_inv T C (mk_sys i o h) l d ->
  (put_body T refresh i v h = Waits <->
   i_closed i = false /\ size d = C /\ out_alive d = true) /\
  (get T o h = Waits <->
   o_closed o = false /\ size d = 0 /\ in_alive d = true) /\
  (get_all T o h = Waits <->
   o_closed o = false /\ size d = 0 /\ in_alive d = true) /\
  (wait_till_empty T i h = Waits <-> size d <> 0 /\ out_alive d = true).
Proof. apply waits_cases. Qed.

End chan.

Lemma try_variants_agree_witness :
  let d := mk_data 1 2 [7; 0] false true true in
  let o := mk_out (Some 0%nat) 0 0 2 false in
  let h : gmap nat (data Z) := {[ 0%nat := d ]} in
  exists o' h', get Z o h = Ret (Some 7, o', h') /\
                try_get Z o h = Ret (Some 7, o', h').
Proof.
  intros d o h.
  destruct (get Z o h) as [[[r o'] h'] | | |] eqn:Hget;
    try (vm_compute in Hget; discriminate).
  assert (Hr : r = Some 7) by (vm_compute in Hget; congruence). subst r.
  exists o', h'. split; [reflexivity |].
  destruct (try_variants_agree Z o h) as [Hagree _]. by apply Hagree.
Defined.

Lemma close_is_idempotent_witness :
  let d := mk_data 1 2 [7; 0] false true true in
  let i := mk_in (Some 0%nat) 1 1 2 false in
  let o := mk_out (Some 0%nat) 0 0 2 false in
  let h : gmap nat (data Z) := {[ 0%nat := d ]} in
  exists i1 h1, in_close Z i h = Ret (i1, h1) /\ in_close Z i1 h1 = Ret (i1, h1).
Proof.
  intros d i o h.
  destruct (in_close Z i h) as [[i1 h1] | | |] eqn:Hc;
    try (vm_compute in Hc; discriminate).
  exists i1, h1. split; [reflexivity |].
  destruct (close_is_idempotent Z i o h) as [Hin _].
  by destruct (Hin i1 h1 Hc).
Defined.

(** A channel of capacity 2 holding 10 and 20. *)
Lemma full_channel_inv :
  let d := mk_data 2 2 [10; 20] false true true in
  let i := mk_in (Some 0%nat) 0 2 2 false in
  let o := mk_out (Some 0%nat) 0 0 2 false in
  let h : gmap nat (data Z) := {[ 0%nat := d ]} in
  channel_inv Z 2 (mk_sys i o h) 0%nat d.
Proof.
  simpl. unfold channel_inv. simpl.
  split; [done |]. split; [done |]. split; [apply lookup_singleton_eq |].
  rewrite size_t_mod_eq. unfold wrap_pos. simpl.
  repeat (split; [first [done | lia] |]). done.
Qed.

Lemma get_all_drains_witness :
  let d := mk_data 2 2 [10; 20] false true true in
  let i := mk_in (Some 0%nat) 0 2 2 false in
  let o := mk_out (Some 0%nat) 0 0 2 false in
  let h : gmap nat (data Z) := {[ 0%nat := d ]} in
  exists o' h', get_all Z o h = Ret (Some [10; 20], o', h') /\
                buffered Z (mk_sys i o' h') = [].
Proof.
  intros d i o h.
  destruct (get_all Z o h) as [[[r o'] h'] | | |] eqn:Hrun;
    try (vm_compute in Hrun; discriminate).
  assert (Hr : r = Some [10; 20]) by (vm_compute in Hrun; congruence). subst r.
  exists o', h'. split; [reflexivity |].
  destruct (get_all_drains Z 2 i o h 0%nat d _ o' h' full_channel_inv Hrun)
    as (_ & _ & Hall & _).
  by destruct (Hall _ eq_refl) as (_ & _ & ?).
Defined.

Lemma waits_iff_witness :
  let d := mk_data 2 2 [10; 20] false true true in
  let i := mk_in (Some 0%nat) 0 2 2 false in
  let h : gmap nat (data Z) := {[ 0%nat := d ]} in
  put Z i 30 h = Waits.
Proof.
  intros d i h.
  destruct (waits_iff Z 2 true i (mk_out (Some 0%nat) 0 0 2 false) h 0%nat d 30
              full_channel_inv) as [Hput _].
  apply Hput. repeat split.
Defined.

End channel_methods.

(** ** channel: shutdown, and every interleaving of every method *)

Module channel_runs.
Import channel channel_facts channel_methods.

Section chan.
Context (T : Type) (T_init : T).
Local Abbreviation heap := (gmap nat (data T)).

(** X21: once the consumer is gone, [put] (either overload) on an open
    producer returns false without waiting, closes the producer, clears
    [in_alive], and adds nothing to the buffer; every later [put] returns
    false at once. *)
Theorem put_after_consumer_gone C refresh i o (h : heap) l d v :
  channel_inv T C (mk_sys i o h) l d ->
  i_closed i = false -> out_alive d = false ->
  exists i' h' d',
    put_body T refresh i v h = Ret (false, i', h') /\
    i_closed i' = true /\ h' !! l = Some d' /\ in_alive d' = false /\
    size d' = size d /\
    buffered T (mk_sys i' o h') = buffered T (mk_sys i o h) /\
    (forall refresh' v', put_body T refresh' i' v' h' = Ret (false, i', h')).
Proof.
  intros Hinv Hopen Hout.
  destruct (put_returns T C refresh i o h l d v Hinv (or_intror Hout))
    as [[[ok i'] h'] Hput].
  destruct (put_body_inv T C refresh i o h l d v ok i' h' Hinv Hput)
    as (d' & Hinv' & Hbuf).
  pose proof Hinv as (Hi & Ho & Hd & HC & Hdc & Hic & Hoc & Hlen & Hmx & Hsz & Hrp
                      & Hwp & Hicache & Hocache & Hlive).
  simpl in *.
  assert (Hres : ok = false /\ i_closed i' = true /\ size d' = size d).
  { pose proof Hinv' as (_ & _ & Hd' & _). simpl in Hd'.
    revert Hput Hd'. unfold put_body. rewrite Hopen, Hi, Hic.
    unfold deref, unique_lock, cv_wait.
    destruct (i_old_size i <? C); simpl.
    - rewrite Hd. simpl.
      destruct (set_slot T (storage d) (write_pos i) v); simpl; [| done | done | done].
      rewrite lookup_insert_eq. simpl. rewrite Hmx, Hout, orb_true_r. simpl.
      intros [= <- <- <-]. rewrite lookup_insert_eq. by intros [= <-].
    - rewrite Hd. simpl. rewrite Hmx, Hout, orb_true_r. simpl.
      intros [= <- <- <-]. rewrite lookup_insert_eq. by intros [= <-]. }
  destruct Hres as (-> & Hclosed & Hsize).
  pose proof Hinv' as (_ & _ & Hd' & _ & _ & _ & _ & _ & _ & _ & _ & _ & _ & _ & Hlive').
  simpl in *.
  exists i', h', d'. rewrite Hbuf, app_nil_r.
  repeat (split; [done |]). split.
  - rewrite Hclosed in Hlive'. by destruct (in_alive d').
  - split; [done |]. split; [done |].
    intros refresh' v'. unfold put_body. by rewrite Hclosed.
Qed.

(** [wait_till_empty] on a channel that satisfies the invariant. *)
Lemma wait_till_empty_inv C i o (h : heap) l d i' h' :
  channel_inv T C (mk_sys i o h) l d ->
  wait_till_empty T i h = Ret (i', h') ->
  (exists d1, channel_inv T C (mk_sys i' o h') l d1) /\
  buffered T (mk_sys i' o h') = buffered T (mk_sys i o h) /\
  (size d = 0 \/ out_alive d = false) /\
  i_closed i' = i_closed i || negb (out_alive d).
Proof.
  intros (Hi & Ho & Hd & HC & Hdc & Hic & Hoc & Hlen & Hmx & Hsz & Hrp & Hwp
          & Hicache & Hocache & Hlive).
  simpl in *. unfold wait_till_empty, buffered. simpl. rewrite Ho, Hd, Hi.
  unfold deref, unique_lock, cv_wait. rewrite Hd. simpl. rewrite Hmx. simpl.
  destruct (Z.eqb_spec (size d) 0) as [Hzero | Hne];
    destruct (out_alive d) eqn:Hout; simpl; try discriminate;
    intros [= <- <-]; simpl; rewrite ?lookup_insert_eq, ?Hd; simpl;
    rewrite ?orb_false_r, ?orb_true_r;
    (split; [| split; [done | split; [first [by left | by right] | done] ] ]);
    eexists; unfold channel_inv; simpl;
    (split; [done |]); (split; [done |]);
    (split; [first [apply lookup_insert_eq | exact Hd] |]); simpl;
    repeat (split; [first [done | lia] |]); first [done | lia].
Qed.

(** X22: on a channel that satisfies the invariant, [wait_till_empty]
    returns only when the buffer is empty or the consumer is gone; it
    leaves the buffer as it is, and the producer is closed afterwards
    exactly when it was closed before or the consumer is gone. *)
Theorem wait_till_empty_returns C i o (h : heap) l d i' h' :
  channel_inv T C (mk_sys i o h) l d ->
  wait_till_empty T i h = Ret (i', h') ->
  (exists d1, channel_inv T C (mk_sys i' o h') l d1) /\
  buffered T (mk_sys i' o h') = buffered T (mk_sys i o h) /\
  (size d = 0 \/ out_alive d = false) /\
  i_closed i' = i_closed i || negb (out_alive d).
Proof. apply wait_till_empty_inv. Qed.

(** [out::close] on a channel that satisfies the invariant. *)
Lemma out_close_inv C i o (h : heap) l d o' h' :
  channel_inv T C (mk_sys i o h) l d ->
  out_close T o h = Ret (o', h') ->
  (exists d1, channel_inv T C (mk_sys i o' h') l d1) /\
  buffered T (mk_sys i o' h') = buffered T (mk_sys i o h).
Proof.
  intros (Hi & Ho & Hd & HC & Hdc & Hic & Hoc & Hlen & Hmx & Hsz & Hrp & Hwp
          & Hicache & Hocache & Hlive).
  simpl in *. unfold out_close, buffered. simpl. rewrite Ho, Hd.
  destruct (o_closed o) eqn:Hclosed.
  { intros [= <- <-]. rewrite Ho, Hd. split; [| done].
    exists d. unfold channel_inv. simpl. by rewrite Hclosed. }
  unfold deref, unique_lock. rewrite Hd. simpl. rewrite Hmx. simpl.
  intros [= <- <-]. simpl. rewrite lookup_insert_eq. simpl. split; [| done].
  eexists. unfold channel_inv. simpl.
  split; [done |]. split; [done |]. split; [apply lookup_insert_eq |]. simpl.
  repeat (split; [first [done | lia] |]). done.
Qed.

(** Where [get] would wait, the [try_] variants return nullopt and change
    nothing. *)
Lemma try_variants_when_empty C i o (h : heap) l d :
  channel_inv T C (mk_sys i o h) l d ->
  o_closed o = false -> size d = 0 -> in_alive d = true ->
  try_get T o h = Ret (None, o, h) /\ try_get_all T o h = Ret (None, o, h).
Proof.
  intros (Hi & Ho & Hd & HC & Hdc & Hic & Hoc & Hlen & Hmx & Hsz & Hrp & Hwp
          & Hicache & Hocache & Hlive) Hopen Hzero Hin.
  simpl in *. specialize (Hocache Hopen).
  unfold try_get, try_get_all, deref, unique_lock.
  rewrite Hopen, Ho. simpl. rewrite Hd. simpl. rewrite Hmx, Hzero, Hin. simpl.
  destruct (Z.ltb_spec 0 (o_old_size o)); [lia | done].
Qed.

(** On a channel that satisfies the invariant the consumer never reads
    outside the storage. *)
Lemma get_never_faults C i o (h : heap) l d :
  channel_inv T C (mk_sys i o h) l d ->
  (get T o h <> Fault /\ get T o h <> Throws) /\
  (get_all T o h <> Fault /\ get_all T o h <> Throws).
Proof.
  intros (Hi & Ho & Hd & HC & Hdc & Hic & Hoc & Hlen & Hmx & Hsz & Hrp & _).
  simpl in *. unfold get, get_all.
  destruct (o_closed o); [done |]. rewrite Ho. unfold deref, unique_lock, cv_wait.
  rewrite Hd. simpl. rewrite Hmx. simpl.
  destruct (slot_in_range T (storage d) (read_pos o)) as (x & _ & Hslot); [lia |].
  rewrite Hoc, Hslot. simpl.
  destruct (Z.ltb_spec 0 (size d)); simpl.
  - rewrite (drain_ring T C (storage d) (Z.to_nat (size d)) (read_pos o))
      by (try done; lia).
    destruct (0 <? o_old_size o); simpl; by rewrite ?Hslot.
  - destruct (in_alive d); destruct (0 <? o_old_size o); simpl; done.
Qed.

(** One call of any method keeps the invariant and moves elements only
    from the accepted values into the buffer or from the buffer to the
    consumer. *)
Lemma invoke_inv C m (s : sys T) l d a s1 :
  channel_inv T C s l d ->
  invoke T m s = Ret (a, s1) ->
  exists d1,
    channel_inv T C s1 l d1 /\
    buffered T s ++ put_values T [m] [a] = got_values T [a] ++ buffered T s1.
Proof.
  destruct s as [i o h]. intros Hinv.
  destruct m as [v | v | | | | | | |]; simpl.
  - destruct (put T i v h) as [[[ok i'] h'] | | |] eqn:Hput; simpl; [| done | done | done].
    intros [= <- <-].
    destruct (put_body_inv T C true i o h l d v ok i' h' Hinv Hput) as (d1 & ? & Hbuf).
    exists d1. split; [done |]. rewrite Hbuf. by destruct ok.
  - destruct (put_move T i v h) as [[[ok i'] h'] | | |] eqn:Hput; simpl; [| done | done | done].
    intros [= <- <-].
    destruct (put_body_inv T C false i o h l d v ok i' h' Hinv Hput) as (d1 & ? & Hbuf).
    exists d1. split; [done |]. rewrite Hbuf. by destruct ok.
  - destruct (wait_till_empty T i h) as [[i' h'] | | |] eqn:Hw; simpl; [| done | done | done].
    intros [= <- <-].
    destruct (wait_till_empty_inv C i o h l d i' h' Hinv Hw) as ([d1 ?] & Hbuf & _).
    exists d1. split; [done |]. by rewrite Hbuf, app_nil_r.
  - destruct (in_close T i h) as [[i' h'] | | |] eqn:Hc; simpl; [| done | done | done].
    intros [= <- <-].
    destruct (in_close_inv T C i o h l d i' h' Hinv Hc) as (d1 & ? & Hbuf).
    exists d1. split; [done |]. by rewrite Hbuf, app_nil_r.
  - destruct (get T o h) as [[[r o'] h'] | | |] eqn:Hg; simpl; [| done | done | done].
    intros [= <- <-].
    destruct (get_inv T C i o h l d r o' h' Hinv Hg) as (d1 & ? & Hbuf).
    exists d1. split; [done |]. rewrite Hbuf, app_nil_r. by destruct r.
  - destruct (try_get T o h) as [[[r o'] h'] | | |] eqn:Hg; simpl; [| done | done | done].
    intros [= <- <-].
    destruct (get T o h) as [[[r0 o0] h0] | | |] eqn:Hget.
    + destruct (try_follows_blocking T o h) as [Hagree _].
      rewrite (Hagree _ Hget) in Hg. injection Hg as <- <- <-.
      destruct (get_inv T C i o h l d r0 o0 h0 Hinv Hget) as (d1 & ? & Hbuf).
      exists d1. split; [done |]. rewrite Hbuf, app_nil_r. by destruct r0.
    + destruct (waits_cases T C true i o h l d T_init Hinv) as (_ & [Hw _] & _).
      destruct (Hw Hget) as (Hopen & Hzero & Hin).
      destruct (try_variants_when_empty C i o h l d Hinv Hopen Hzero Hin) as [Ht _].
      rewrite Ht in Hg. injection Hg as <- <- <-.
      exists d. split; [done |]. by rewrite app_nil_r.
    + by destruct (get_never_faults C i o h l d Hinv) as [[? _] _].
    + by destruct (get_never_faults C i o h l d Hinv) as [[_ ?] _].
  - destruct (get_all T o h) as [[[r o'] h'] | | |] eqn:Hg; simpl; [| done | done | done].
    intros [= <- <-].
    destruct (get_all_inv T C i o h l d r o' h' Hinv Hg) as ([d1 ?] & Hbuf & _).
    exists d1. split; [done |]. rewrite Hbuf. destruct r; simpl; by rewrite ?app_nil_r.
  - destruct (try_get_all T o h) as [[[r o'] h'] | | |] eqn:Hg; simpl; [| done | done | done].
    intros [= <- <-].
    destruct (get_all T o h) as [[[r0 o0] h0] | | |] eqn:Hget.
    + destruct (try_follows_blocking T o h) as [_ Hagree].
      rewrite (Hagree _ Hget) in Hg. injection Hg as <- <- <-.
      destruct (get_all_inv T C i o h l d r0 o0 h0 Hinv Hget) as ([d1 ?] & Hbuf & _).
      exists d1. split; [done |]. rewrite Hbuf. destruct r0; simpl; by rewrite ?app_nil_r.
    + destruct (waits_cases T C true i o h l d T_init Hinv) as (_ & _ & [Hw _] & _).
      destruct (Hw Hget) as (Hopen & Hzero & Hin).
      destruct (try_variants_when_empty C i o h l d Hinv Hopen Hzero Hin) as [_ Ht].
      rewrite Ht in Hg. injection Hg as <- <- <-.
      exists d. split; [done |]. by rewrite app_nil_r.
    + by destruct (get_never_faults C i o h l d Hinv) as [_ [? _]].
    + by destruct (get_never_faults C i o h l d Hinv) as [_ [_ ?]].
  - destruct (out_close T o h) as [[o' h'] | | |] eqn:Hc; simpl; [| done | done | done].
    intros [= <- <-].
    destruct (out_close_inv C i o h l d o' h' Hinv Hc) as ([d1 ?] & Hbuf).
    exists d1. split; [done |]. by rewrite Hbuf, app_nil_r.
Qed.

Lemma put_values_cons m a ms ans :
  put_values T (m :: ms) (a :: ans) = put_values T [m] [a] ++ put_values T ms ans.
Proof. destruct m, a as [[] | | |]; reflexivity. Qed.

Lemma got_values_cons a ans :
  got_values T (a :: ans) = got_values T [a] ++ got_values T ans.
Proof. destruct a as [| [] | [] |]; simpl; by rewrite ?app_nil_r. Qed.

Lemma invoke_all_inv C ms :
  forall (s : sys T) l d ans s',
    channel_inv T C s l d ->
    invoke_all T ms s = Ret (ans, s') ->
    exists d',
      channel_inv T C s' l d' /\
      buffered T s ++ put_values T ms ans = got_values T ans ++ buffered T s'.
Proof.
  induction ms as [| m ms IH]; intros s l d ans s' Hinv Hall; simpl in Hall.
  - injection Hall as <- <-. exists d. split; [done |]. by rewrite app_nil_r.
  - destruct (invoke T m s) as [[a s1] | | |] eqn:Hstep; simpl in Hall; [| done | done | done].
    destruct (invoke_all T ms s1) as [[ans1 s2] | | |] eqn:Hrun; simpl in Hall;
      [| done | done | done].
    injection Hall as <- <-.
    destruct (invoke_inv C m s l d a s1 Hinv Hstep) as (d1 & Hinv1 & Hone).
    destruct (IH s1 l d1 ans1 s2 Hinv1 Hrun) as (d2 & Hinv2 & Hrest).
    exists d2. split; [done |].
    rewrite put_values_cons, got_values_cons.
    rewrite app_assoc, Hone, <- app_assoc, Hrest, app_assoc. done.
Qed.

(** X23: for every sequence of calls of any methods of the two endpoints
    of a new channel, each run to completion, what the consumer was handed
    ([get], [try_get], [get_all], [try_get_all]) followed by what is still
    buffered is what [put] accepted, in order; and the buffer never holds
    more than [max(capacity, 1)] elements. *)
Theorem channel_fifo_all_methods (capacity : Z) (alloc_ok : bool) (h0 : heap)
        i o h ms ans s' :
  is_size_t capacity ->
  CreateBufferedChannel T T_init capacity alloc_ok h0 = Ret (i, o, h) ->
  invoke_all T ms (mk_sys i o h) = Ret (ans, s') ->
  put_values T ms ans = got_values T ans ++ buffered T s' /\
  Z.of_nat (length (buffered T s')) <= Z.max capacity 1.
Proof.
  intros Hcap Hnew Hrun.
  destruct (CreateBufferedChannel_inv T T_init capacity alloc_ok h0 i o h Hcap Hnew)
    as (l & d & Hinv & Hempty).
  destruct (invoke_all_inv (Z.max capacity 1) ms _ l d ans s' Hinv Hrun)
    as (d' & Hinv' & Hfifo).
  rewrite Hempty in Hfifo. simpl in Hfifo. split; [exact Hfifo |].
  destruct s' as [i' o' h'].
  destruct Hinv' as (Hi & Ho & Hd & HC & Hdc & Hic & Hoc & Hlen & Hmx & Hsz & Hrp & _).
  simpl in *. unfold buffered. simpl. rewrite Ho, Hd, Hoc.
  rewrite (ring_length T (Z.max capacity 1)) by (try done; lia). lia.
Qed.

End chan.

Lemma put_after_consumer_gone_witness :
  let d := mk_data 1 2 [10; 0] false true false in
  let i := mk_in (Some 0%nat) 1 1 2 false in
  let o := mk_out (Some 0%nat) 0 1 2 true in
  let h : gmap nat (data Z) := {[ 0%nat := d ]} in
  exists i' h', put Z i 30 h = Ret (false, i', h') /\ i_closed i' = true /\
                put Z i' 40 h' = Ret (false, i', h').
Proof.
  intros d i o h.
  assert (Hinv : channel_inv Z 2 (mk_sys i o h) 0%nat d).
  { unfold channel_inv. simpl.
    split; [done |]. split; [done |]. split; [apply lookup_singleton_eq |].
    rewrite size_t_mod_eq. unfold wrap_pos. simpl.
    repeat (split; [first [done | lia] |]). done. }
  destruct (put_after_consumer_gone Z 2 true i o h 0%nat d 30 Hinv eq_refl eq_refl)
    as (i' & h' & d' & Hput & Hclosed & _ & _ & _ & _ & Hlater).
  exists i', h'. split; [exact Hput |]. split; [exact Hclosed |]. apply Hlater.
Defined.

Lemma wait_till_empty_returns_witness :
  let d := mk_data 1 2 [10; 0] false true false in
  let i := mk_in (Some 0%nat) 1 1 2 false in
  let o := mk_out (Some 0%nat) 0 1 2 true in
  let h : gmap nat (data Z) := {[ 0%nat := d ]} in
  exists i' h', wait_till_empty Z i h = Ret (i', h') /\ i_closed i' = true /\
                buffered Z (mk_sys i' o h') = [10].
Proof.
  intros d i o h.
  assert (Hinv : channel_inv Z 2 (mk_sys i o h) 0%nat d).
  { unfold channel_inv. simpl.
    split; [done |]. split; [done |]. split; [apply lookup_singleton_eq |].
    rewrite size_t_mod_eq. unfold wrap_pos. simpl.
    repeat (split; [first [done | lia] |]). done. }
  destruct (wait_till_empty Z i h) as [[i' h'] | | |] eqn:Hrun;
    try (vm_compute in Hrun; discriminate).
  destruct (wait_till_empty_returns Z 2 i o h 0%nat d i' h' Hinv Hrun)
    as (_ & Hbuf & _ & Hclosed).
  exists i', h'. split; [reflexivity |]. split; [exact Hclosed |].
  rewrite Hbuf. reflexivity.
Defined.

Lemma channel_fifo_all_methods_witness :
  let ms := [m_put 10; m_put_move 20; m_try_get; m_put 30; m_get_all;
             m_try_get_all; m_put 40; m_out_close; m_put 50; m_wait_till_empty] in
  exists i o h ans s',
    CreateBufferedChannel Z 0 2 true ∅ = Ret (i, o, h) /\
    invoke_all Z ms (mk_sys i o h) = Ret (ans, s') /\
    ans = [a_put true; a_put true; a_get (Some 10); a_put true;
           a_get_all (Some [20; 30]); a_get_all None; a_put true; a_done;
           a_put false; a_done] /\
    put_values Z ms ans = got_values Z ans ++ buffered Z s' /\
    got_values Z ans = [10; 20; 30].
Proof.
  intros ms.
  assert (Hcap : is_size_t 2) by (vm_compute; intuition discriminate).
  destruct (CreateBufferedChannel Z 0 2 true ∅) as [[[i o] h] | | |] eqn:Hnew;
    try (vm_compute in Hnew; discriminate).
  destruct (invoke_all Z ms (mk_sys i o h)) as [[ans s'] | | |] eqn:Hrun;
    try (vm_compute in Hnew; injection Hnew as <- <- <-; vm_compute in Hrun;
         discriminate).
  exists i, o, h, ans, s'.
  destruct (channel_fifo_all_methods Z 0 2 true ∅ i o h ms ans s' Hcap Hnew Hrun)
    as [Hfifo _].
  assert (Hans : ans = [a_put true; a_put true; a_get (Some 10); a_put true;
                        a_get_all (Some [20; 30]); a_get_all None; a_put true;
                        a_done; a_put false; a_done]).
  { vm_compute in Hnew. injection Hnew as <- <- <-.
    vm_compute in Hrun. by injection Hrun as <- _. }
  split; [reflexivity |]. split; [exact Hrun |].
  split; [exact Hans |]. split; [exact Hfifo |].
  rewrite Hans. reflexivity.
Defined.

End channel_runs.
